(** * An LRU cache with optional TTL: model and verification

    Shallow embedding of the Go package [lrucache]:
    - [src/lru.go]       the TTL-capable cache (top level of this file),
    - [src/lruCache.go]  the standalone cache without TTL (module [NoTTL]).

    Conventions of the embedding.
    - [Key] is Go's [type Key string].
    - Go's [any] is [option V]: [None] is the nil interface value, [Some v]
      a non-nil dynamic value.
    - [time.Duration] is a number of nanoseconds and [time.Time] the number
      of nanoseconds since the zero [time.Time], which is [0]; every clock
      reading is an argument of the operation that reads the clock.
    - [container/list] is a Rocq list of elements, front first.  An element
      is a pointer in Go: it is identified here by a number [eid], handed
      out by the allocation counter [fresh] of the cache.
    - A Go panic (nil dereference) is the result [None].  So is the
      dereference of a node that is indexed but not linked in the list, for
      which the model keeps no value; [wf] below excludes it. *)

From Stdlib Require Import ZArith Lia.
From stdpp Require Import gmap strings list fin_maps sorting.

Abbreviation Key := string (only parsing).
Abbreviation Time := Z (only parsing).
Abbreviation Duration := Z (only parsing).

(** ** container/list *)

Section ContainerList.
Context {T : Type}.

(** [*list.Element]: the identity of the node and its [Value] field. *)
Record Element := Elem { eid : nat; Value : T }.

(** Dereference of an element pointer that is linked in the list. *)
Fixpoint l_elem (e : nat) (q : list Element) : option Element :=
  match q with
  | [] => None
  | x :: q' => if decide (eid x = e) then Some x else l_elem e q'
  end.

Definition l_Init : list Element := [].
Definition l_Len (q : list Element) : Z := Z.of_nat (length q).
Definition l_Back (q : list Element) : option Element := last q.
Definition l_PushFront (e : nat) (v : T) (q : list Element) : list Element :=
  Elem e v :: q.
(** [Remove] and [MoveToFront] leave the list alone when the element is
    not one of its nodes ([e.list != l]). *)
Definition l_Remove (e : nat) (q : list Element) : list Element :=
  filter (λ x, eid x ≠ e) q.
Definition l_MoveToFront (e : nat) (q : list Element) : list Element :=
  match l_elem e q with
  | Some x => x :: l_Remove e q
  | None => q
  end.
(** The assignment [node.Value = v]. *)
Definition l_SetValue (e : nat) (v : T) (q : list Element) : list Element :=
  (λ x, if decide (eid x = e) then Elem e v else x) <$> q.
End ContainerList.

Arguments Element : clear implicits.

(** A node with the same identity and the value [f v] for the value [v]. *)
Definition map_node {T T'} (f : T → T') (x : Element T) : Element T' :=
  Elem (eid x) (f (Value x)).

(** ** src/lruCache_interface.go: the calls of the interface [Cache] *)

Section Interface.
Context {V : Type}.
Local Abbreviation any := (option V).

Inductive Call := CSet (k : Key) (v : any) | CGet (k : Key) | CClear.
Inductive Ret := RSet (updated : bool) | RGet (v : any) (found : bool) | RClear.
End Interface.
Arguments Call : clear implicits.
Arguments Ret : clear implicits.

(** ** src/lruCache.go: the cache without TTL *)

Module NoTTL.
Section NoTTL.
Context {V : Type}.
Local Abbreviation any := (option V).

Record listItem := Item { key : Key; value : any }.

Record LRUCache := Cache {
  cap : Z;
  items : gmap Key nat;
  queue : list (Element listItem);
  fresh : nat (* next element identity; not a field of the Go struct *)
}.

Definition New (cap : Z) : LRUCache + string :=
  if (cap <=? 0)%Z then inr "cap must be positive"
  else inl (Cache cap ∅ l_Init 0).

Definition LRUCache_Set (k : Key) (v : any) (l : LRUCache)
  : option (bool * LRUCache) :=
  match items l !! k with
  | Some node =>
      (* the [value] field of the item [node.Value] is overwritten *)
      match l_elem node (queue l) with
      | None => None
      | Some x =>
          let q := l_SetValue node (Item (key (Value x)) v) (queue l) in
          Some (true, Cache (cap l) (items l) (l_MoveToFront node q) (fresh l))
      end
  | None =>
      let evicted :=
        if (Z.of_nat (size (items l)) =? cap l)%Z then
          match l_Back (queue l) with
          | None => None
          | Some lastNode =>
              let item := Value lastNode in
              Some (l_Remove (eid lastNode) (queue l), delete (key item) (items l))
          end
        else Some (queue l, items l) in
      match evicted with
      | None => None
      | Some (q, m) =>
          let node := fresh l in
          Some (false,
                Cache (cap l) (<[k := node]> m) (l_PushFront node (Item k v) q)
                      (S (fresh l)))
      end
  end.

Definition LRUCache_Get (k : Key) (l : LRUCache)
  : option ((any * bool) * LRUCache) :=
  match items l !! k with
  | None => Some ((None, false), l)
  | Some node =>
      let l' := Cache (cap l) (items l) (l_MoveToFront node (queue l)) (fresh l) in
      match l_elem node (queue l) with
      | None => None
      | Some x => Some ((value (Value x), true), l')
      end
  end.

Definition LRUCache_Clear (l : LRUCache) : LRUCache :=
  Cache (cap l) ∅ l_Init (fresh l).

Definition LRUCache_call (c : Call V) (l : LRUCache)
  : option (Ret V * LRUCache) :=
  match c with
  | CSet k v =>
      match LRUCache_Set k v l with
      | Some (b, l') => Some (RSet b, l')
      | None => None
      end
  | CGet k =>
      match LRUCache_Get k l with
      | Some ((v, found), l') => Some (RGet v found, l')
      | None => None
      end
  | CClear => Some (RClear, LRUCache_Clear l)
  end.

Fixpoint run_calls (cs : list (Call V)) (l : LRUCache)
  : option (list (Ret V) * LRUCache) :=
  match cs with
  | [] => Some ([], l)
  | c :: cs' =>
      match LRUCache_call c l with
      | None => None
      | Some (r, l') =>
          match run_calls cs' l' with
          | None => None
          | Some (rs, l'') => Some (r :: rs, l'')
          end
      end
  end.
End NoTTL.
Arguments listItem : clear implicits.
Arguments LRUCache : clear implicits.
End NoTTL.

(** ** src/lru.go: the cache with optional TTL *)

Section Lru.
Context {V : Type}.
Local Abbreviation any := (option V).

Record listItem := Item { key : Key; value : any; expiresAt : Time }.

(** The Go struct also holds [cf] (always [clearExpired] for a cache built
    by [New]) and the mutex [mu] (see the access traces below).  [cancel]
    is the context the cancel function closes; [None] is Go's nil. *)
Record LRUCache := Cache {
  cap : Z;
  ttl : Duration;
  cancel : option nat;
  items : gmap Key nat;
  queue : list (Element listItem);
  fresh : nat (* next element identity; not a field of the Go struct *)
}.

Definition with_store (m : gmap Key nat) (q : list (Element listItem))
    (n : nat) (l : LRUCache) : LRUCache :=
  Cache (cap l) (ttl l) (cancel l) m q n.

(** [l.deleteItem(node)] for a node that is not nil. *)
Definition LRUCache_deleteItem (node : Element listItem) (l : LRUCache)
  : LRUCache :=
  let q := l_Remove (eid node) (queue l) in
  let item := Value node in
  with_store (delete (key item) (items l)) q (fresh l) l.

(** [time.Now().Add(l.ttl)] when TTL is on, the zero time otherwise. *)
Definition stamp (now : Time) (l : LRUCache) : Time :=
  if (0 <? ttl l)%Z then (now + ttl l)%Z else 0%Z.

Definition LRUCache_Set (k : Key) (v : any) (now : Time) (l : LRUCache)
  : option (bool * LRUCache) :=
  let newItem := Item k v (stamp now l) in
  match items l !! k with
  | Some node =>
      let q := l_SetValue node newItem (queue l) in
      Some (true, with_store (items l) (l_MoveToFront node q) (fresh l) l)
  | None =>
      (* [l.deleteItem(l.queue.Back())]: a nil [Back()] panics in
         [queue.Remove] *)
      match (if (Z.of_nat (size (items l)) =? cap l)%Z
             then match l_Back (queue l) with
                  | None => None
                  | Some back => Some (LRUCache_deleteItem back l)
                  end
             else Some l) with
      | None => None
      | Some l1 =>
          let node := fresh l1 in
          Some (false,
                with_store (<[k := node]> (items l1))
                           (l_PushFront node newItem (queue l1))
                           (S (fresh l1)) l1)
      end
  end.

(** The item [li] after [if l.ttl > 0 { li.expiresAt = time.Now().Add(l.ttl) }]. *)
Definition refreshed (now : Time) (l : LRUCache) (li : listItem) : listItem :=
  if (0 <? ttl l)%Z then Item (key li) (value li) (now + ttl l)%Z else li.

Definition LRUCache_Get (k : Key) (now : Time) (l : LRUCache)
  : option ((any * bool) * LRUCache) :=
  match items l !! k with
  | None => Some ((None, false), l)
  | Some node =>
      match l_elem node (queue l) with
      | None => None
      | Some x =>
          let li := refreshed now l (Value x) in
          let q := l_SetValue node li (queue l) in
          Some ((value li, true),
                with_store (items l) (l_MoveToFront node q) (fresh l) l)
      end
  end.

(** [Clear]: the second component is the context whose cancel function
    was called, if any. *)
Definition LRUCache_Clear (l : LRUCache) : LRUCache * option nat :=
  let l1 := match cancel l with
            | Some _ => Cache (cap l) 0%Z (cancel l) (items l) (queue l) (fresh l)
            | None => l
            end in
  (with_store ∅ l_Init (fresh l1) l1, cancel l).

(** The loop of [clearExpired].  [nodes] is the chain [Back, Back.Prev, ...]
    as it stands when the loop starts (only inspected nodes are removed, so
    [Prev] of the current node is not affected by the removals); [clk i] is
    the clock reading of the [i]-th call of [time.Until]. *)
Fixpoint clearExpired_loop (clk : nat → Time) (i : nat)
    (nodes : list (Element listItem)) (l : LRUCache) : LRUCache :=
  match nodes with
  | [] => l
  | node :: prevs =>
      if (0 <? expiresAt (Value node) - clk i)%Z then l
      else clearExpired_loop clk (S i) prevs (LRUCache_deleteItem node l)
  end.

Definition clearExpired (clk : nat → Time) (l : LRUCache) : LRUCache :=
  if (l_Len (queue l) =? 0)%Z then l
  else clearExpired_loop clk 0 (reverse (queue l)) l.

(** *** Goroutines, contexts and tickers

    [WithTTL] creates a cancellable context and starts a goroutine.  The
    runtime records, for every context created, whether its cancel function
    has been called, and the state of every goroutine started. *)

Inductive TaskState :=
| Spawned                      (* started by [go], has not run yet *)
| Ticking (period : Duration)  (* in the [for { select ... } ] loop *)
| Returned                     (* took the [<-ctx.Done()] branch *)
| Panicked.                    (* [time.NewTicker] panicked *)

Record Task := mkTask { t_ctx : nat; t_ticks : Z; t_state : TaskState }.

Record Runtime := mkRuntime { contexts : list bool; tasks : list Task }.

(** [time.NewTicker(d)] panics unless [d] is positive. *)
Definition NewTicker (d : Duration) : option Duration :=
  if (d <=? 0)%Z then None else Some d.

Definition Option := LRUCache → Runtime → option string * LRUCache * Runtime.

Definition WithTTL (ttl : Duration) (ticks : Z) : Option :=
  λ l rt,
    if (ttl <=? 0)%Z then (Some "ttl duration must be positive", l, rt)
    else if (ticks <=? 1)%Z then (Some "ticks must be greater 1", l, rt)
    else
      let ctx := length (contexts rt) in
      (None,
       Cache (cap l) ttl (Some ctx) (items l) (queue l) (fresh l),
       mkRuntime (contexts rt ++ [false])
                 (tasks rt ++ [mkTask ctx ticks Spawned])).

(** The loop over [options] in [New]. *)
Fixpoint apply_options (options : list Option) (l : LRUCache) (rt : Runtime)
  : option string * LRUCache * Runtime :=
  match options with
  | [] => (None, l, rt)
  | opt :: rest =>
      match opt l rt with
      | (Some err, l', rt') => (Some err, l', rt')
      | (None, l', rt') => apply_options rest l' rt'
      end
  end.

(** [New]: [inr err] is the Go result [(nil, err)]. *)
Definition New (cap : Z) (options : list Option) (rt : Runtime)
  : (LRUCache + string) * Runtime :=
  if (cap <=? 0)%Z then (inr "cap must be positive", rt)
  else
    match apply_options options (Cache cap 0%Z None ∅ l_Init 0) rt with
    | (Some err, _, rt') => (inr err, rt')
    | (None, l, rt') => (inl l, rt')
    end.

(** *** Calls of the public interface and sweeper ticks *)

Definition LRUCache_call (c : Call V) (now : Time) (l : LRUCache)
  : option (Ret V * LRUCache) :=
  match c with
  | CSet k v =>
      match LRUCache_Set k v now l with
      | Some (b, l') => Some (RSet b, l')
      | None => None
      end
  | CGet k =>
      match LRUCache_Get k now l with
      | Some ((v, found), l') => Some (RGet v found, l')
      | None => None
      end
  | CClear => Some (RClear, fst (LRUCache_Clear l))
  end.

(** A sequence of calls, each with the clock reading it may take. *)
Fixpoint run_calls (cs : list (Call V * Time)) (l : LRUCache)
  : option (list (Ret V) * LRUCache) :=
  match cs with
  | [] => Some ([], l)
  | (c, now) :: cs' =>
      match LRUCache_call c now l with
      | None => None
      | Some (r, l') =>
          match run_calls cs' l' with
          | None => None
          | Some (rs, l'') => Some (r :: rs, l'')
          end
      end
  end.

(** What can happen to the cache: a call, or a tick of the sweeper
    ([l.cf(l)], that is [clearExpired]). *)
Inductive Op := OCall (c : Call V) (now : Time) | OTick (clk : nat → Time).

Definition step (op : Op) (l : LRUCache) : option LRUCache :=
  match op with
  | OCall c now => snd <$> LRUCache_call c now l
  | OTick clk => Some (clearExpired clk l)
  end.

Fixpoint run (ops : list Op) (l : LRUCache) : option LRUCache :=
  match ops with
  | [] => Some l
  | op :: ops' =>
      match step op l with
      | None => None
      | Some l' => run ops' l'
      end
  end.

(** The key an operation touches: [Set] always touches its key, [Get]
    touches it when it finds it. *)
Definition touched (op : Op) (l : LRUCache) : option Key :=
  match op with
  | OCall (CSet k _) _ => Some k
  | OCall (CGet k) _ => match items l !! k with Some _ => Some k | None => None end
  | _ => None
  end.

(** [run] with a ghost record of touches: [lt k] is the number of the last
    step that touched [k] (steps are numbered from [n + 1]). *)
Fixpoint run_touch (n : nat) (lt : Key → nat) (ops : list Op) (l : LRUCache)
  : option (LRUCache * (Key → nat)) :=
  match ops with
  | [] => Some (l, lt)
  | op :: ops' =>
      match step op l with
      | None => None
      | Some l' =>
          let lt' := match touched op l with
                     | Some k => λ k', if decide (k' = k) then S n else lt k'
                     | None => lt
                     end in
          run_touch (S n) lt' ops' l'
      end
  end.

(** *** The cache together with its sweepers

    One step of the whole system: a call by a client, or a step of a
    sweeper goroutine.  [EStart i]: goroutine [i] runs up to its loop,
    creating its ticker from [l.ttl] as it is then.  In the loop the
    [select] statement takes a branch whose channel is ready: [ETick]
    when the ticker has delivered a tick, [EDone] once the context is
    cancelled; when both are ready Go chooses either.  A panic of a
    goroutine stops the program. *)

Record World := mkWorld { w_cache : LRUCache; w_rt : Runtime }.

Inductive Event :=
| ECall (c : Call V) (now : Time)
| EStart (i : nat)
| ETick (i : nat) (clk : nat → Time)
| EDone (i : nat).

Definition task_panicked (t : Task) : bool :=
  match t_state t with Panicked => true | _ => false end.

Definition crashed (rt : Runtime) : bool := existsb task_panicked (tasks rt).

Definition set_task (i : nat) (t : Task) (st : TaskState) (rt : Runtime)
  : Runtime :=
  mkRuntime (contexts rt) (<[i := mkTask (t_ctx t) (t_ticks t) st]> (tasks rt)).

Definition call_cancel (c : option nat) (rt : Runtime) : Runtime :=
  match c with
  | Some ctx => mkRuntime (<[ctx := true]> (contexts rt)) (tasks rt)
  | None => rt
  end.

Definition exec (e : Event) (w : World) : option World :=
  let l := w_cache w in
  let rt := w_rt w in
  if crashed rt then None
  else
    match e with
    | ECall CClear _ =>
        let '(l', c) := LRUCache_Clear l in Some (mkWorld l' (call_cancel c rt))
    | ECall c now =>
        match LRUCache_call c now l with
        | Some (_, l') => Some (mkWorld l' rt)
        | None => None
        end
    | EStart i =>
        match tasks rt !! i with
        | Some t =>
            match t_state t with
            | Spawned =>
                let st := match NewTicker (ttl l `quot` t_ticks t)%Z with
                          | Some d => Ticking d
                          | None => Panicked
                          end in
                Some (mkWorld l (set_task i t st rt))
            | _ => None
            end
        | None => None
        end
    | ETick i clk =>
        match tasks rt !! i with
        | Some t =>
            match t_state t with
            | Ticking _ => Some (mkWorld (clearExpired clk l) rt)
            | _ => None
            end
        | None => None
        end
    | EDone i =>
        match tasks rt !! i with
        | Some t =>
            match t_state t, contexts rt !! t_ctx t with
            | Ticking _, Some true => Some (mkWorld l (set_task i t Returned rt))
            | _, _ => None
            end
        | None => None
        end
    end.

Fixpoint exec_all (es : list Event) (w : World) : option World :=
  match es with
  | [] => Some w
  | e :: es' =>
      match exec e w with
      | None => None
      | Some w' => exec_all es' w'
      end
  end.

(** *** Accesses to the shared state, in program order

    The shared state is the tuple of the fields [ttl], [cancel], [items] and
    [queue] (nodes and their items included); [cap] is never written after
    construction.  Each function lists what the operation does to the
    mutex [mu] and to the shared fields, statement by statement. *)

Inductive Field := F_ttl | F_cancel | F_items | F_queue.
Inductive Access := A_Lock | A_Unlock | A_Read (f : Field) | A_Write (f : Field).

#[global] Instance Field_eq_dec : EqDecision Field.
Proof. solve_decision. Defined.
#[global] Instance Access_eq_dec : EqDecision Access.
Proof. solve_decision. Defined.

Definition Set_accesses (k : Key) (l : LRUCache) : list Access :=
  (* l.ttl > 0; time.Now().Add(l.ttl) *)
  [A_Read F_ttl] ++ (if (0 <? ttl l)%Z then [A_Read F_ttl] else []) ++
  (* l.mu.Lock(); defer l.mu.Unlock() *)
  [A_Lock] ++
  (* node, exist := l.items[key] *)
  [A_Read F_items] ++
  match items l !! k with
  | Some _ =>
      (* node.Value = newItem; l.queue.MoveToFront(node) *)
      [A_Write F_queue; A_Write F_queue]
  | None =>
      (* len(l.items) == l.cap *)
      [A_Read F_items] ++
      (* l.deleteItem(l.queue.Back()) *)
      (if (Z.of_nat (size (items l)) =? cap l)%Z
       then [A_Read F_queue; A_Write F_queue; A_Read F_queue; A_Write F_items]
       else []) ++
      (* l.items[key] = l.queue.PushFront(newItem) *)
      [A_Write F_queue; A_Write F_items]
  end ++
  [A_Unlock].

Definition Get_accesses (k : Key) (l : LRUCache) : list Access :=
  [A_Lock; A_Read F_items] ++
  match items l !! k with
  | None => []
  | Some _ =>
      (* li := node.Value; l.ttl > 0 *)
      [A_Read F_queue; A_Read F_ttl] ++
      (* li.expiresAt = time.Now().Add(l.ttl) *)
      (if (0 <? ttl l)%Z then [A_Read F_ttl; A_Write F_queue] else []) ++
      (* l.queue.MoveToFront(node); return li.value, true *)
      [A_Write F_queue; A_Read F_queue]
  end ++
  [A_Unlock].

Definition Clear_accesses (l : LRUCache) : list Access :=
  (* l.cancel != nil *)
  [A_Read F_cancel] ++
  (* l.cancel(); l.ttl = 0 *)
  match cancel l with
   | Some _ => [A_Read F_cancel; A_Write F_ttl]
   | None => []
   end ++
  (* clear(l.items); l.queue.Init() *)
  [A_Write F_items; A_Write F_queue].

Fixpoint clearExpired_loop_accesses (clk : nat → Time) (i : nat)
    (nodes : list (Element listItem)) : list Access :=
  match nodes with
  | [] => []
  | node :: prevs =>
      (* the expiresAt field of node.Value *)
      A_Read F_queue ::
      if (0 <? expiresAt (Value node) - clk i)%Z then []
      else
        (* node.Prev(); l.deleteItem(delNode) *)
        [A_Read F_queue; A_Write F_queue; A_Read F_queue; A_Write F_items] ++
        clearExpired_loop_accesses clk (S i) prevs
  end.

Definition clearExpired_accesses (clk : nat → Time) (l : LRUCache)
  : list Access :=
  [A_Lock; A_Read F_queue] ++
  (if (l_Len (queue l) =? 0)%Z then []
   else A_Read F_queue :: clearExpired_loop_accesses clk 0 (reverse (queue l))) ++
  [A_Unlock].

(** Every access to a shared field happens while the mutex is held, the
    mutex is not locked twice, and it is released at the end. *)
Fixpoint guarded (held : bool) (tr : list Access) : bool :=
  match tr with
  | [] => negb held
  | A_Lock :: tr' => negb held && guarded true tr'
  | A_Unlock :: tr' => held && guarded false tr'
  | _ :: tr' => held && guarded held tr'
  end.

Definition locks_once (tr : list Access) : bool :=
  Nat.eqb (length (filter (λ a, a = A_Lock) tr)) 1.

(** *** The representation invariant (spec, section 3)

    The index is exactly the map from the key of each node of the ordering
    to that node, no key and no node occurs twice, and the ordering holds
    at most [cap] nodes. *)

Definition ekey (x : Element listItem) : Key := key (Value x).

Definition index_of (q : list (Element listItem)) : gmap Key nat :=
  list_to_map ((λ x, (ekey x, eid x)) <$> q).

Record wf_store (m : gmap Key nat) (q : list (Element listItem)) (n : nat)
  : Prop := WfStore {
  ws_index : m = index_of q;
  ws_keys : NoDup (ekey <$> q);
  ws_ids : NoDup (eid <$> q);
  ws_fresh : Forall (λ x, eid x < n) q
}.

Definition wf (l : LRUCache) : Prop :=
  wf_store (items l) (queue l) (fresh l) ∧
  (0 < cap l)%Z ∧ (Z.of_nat (length (queue l)) ≤ cap l)%Z.

(** *** Notions used in the statements *)

(** The options the package provides: a list of [WithTTL] options. *)
Definition ttl_options (cfgs : list (Duration * Z)) : list Option :=
  (λ cfg, WithTTL cfg.1 cfg.2) <$> cfgs.

(** The guard of the eviction branch of [Set]: the key is not indexed and
    [len(l.items) == l.cap]. *)
Definition Set_evicts (k : Key) (l : LRUCache) : bool :=
  match items l !! k with
  | Some _ => false
  | None => (Z.of_nat (size (items l)) =? cap l)%Z
  end.

(** The value the cache holds for a key: the item of some node of the
    ordering has this key and this value. *)
Definition holds (l : LRUCache) (k : Key) (v : any) : Prop :=
  ∃ x, x ∈ queue l ∧ ekey x = k ∧ value (Value x) = v.



Definition is_Clear (op : Op) : bool :=
  match op with OCall CClear _ => true | _ => false end.

(** A sequence of [Set] calls and the value last set for a key by it. *)
Definition set_ops (sets : list (Key * any * Time)) : list Op :=
  (λ s, OCall (CSet s.1.1 s.1.2) s.2) <$> sets.

Definition last_value (sets : list (Key * any * Time)) (k : Key) : option any :=
  foldl (λ acc s, if decide (s.1.1 = k) then Some s.1.2 else acc) None sets.

(** The failure kinds of the specification (section 7) for the three error
    messages of [New] and [WithTTL]. *)
Inductive ErrorKind := InvalidCapacity | InvalidTTLConfig.

Definition error_kind (err : string) : option ErrorKind :=
  if decide (err = "cap must be positive") then Some InvalidCapacity
  else if decide (err = "ttl duration must be positive") then Some InvalidTTLConfig
  else if decide (err = "ticks must be greater 1") then Some InvalidTTLConfig
  else None.

(** A cache without a cancel function has TTL off. *)
Definition ttl_ok (l : LRUCache) : Prop := cancel l = None → ttl l = 0%Z.

(** The state of the cache of [src/lruCache.go] that corresponds to a state
    of this cache: the same capacity, the same index, the same nodes in the
    same order with the same keys and values; [ttl], [cancel] and the
    expiration times have no counterpart. *)
Definition erase (li : listItem) : NoTTL.listItem V :=
  NoTTL.Item (key li) (value li).

Definition erase_node : Element listItem → Element (NoTTL.listItem V) :=
  map_node erase.

Definition erase_cache (l : LRUCache) : NoTTL.LRUCache V :=
  NoTTL.Cache (cap l) (items l) (erase_node <$> queue l) (fresh l).
End Lru.
Arguments listItem : clear implicits.
Arguments LRUCache : clear implicits.
Arguments World : clear implicits.
Arguments Op : clear implicits.
Arguments Event : clear implicits.
Arguments Option : clear implicits.

(** ** Concrete caches used in the examples *)

Section ExampleCaches.
Local Open Scope Z_scope.

(** A cache of capacity 2 with ttl 100 and 4 ticks: as constructed, and
    after [Set(a,1)] at time 5 and [Set(b,2)] at time 6. *)
Definition ex_rt : Runtime := mkRuntime [false] [mkTask 0 4 Spawned].

Definition ex_new : LRUCache Z := Cache 2 100 (Some 0%nat) ∅ [] 0.

Definition ex_ops : list (Op Z) :=
  [OCall (CSet "a" (Some 1)) 5; OCall (CSet "b" (Some 2)) 6].

Definition ex_a : Element (listItem Z) := Elem 0 (Item "a" (Some 1) 105).
Definition ex_b : Element (listItem Z) := Elem 1 (Item "b" (Some 2) 106).

Definition ex_full : LRUCache Z :=
  Cache 2 100 (Some 0%nat) (<["a" := 0%nat]> (<["b" := 1%nat]> ∅)) [ex_b; ex_a] 2.

(** The step of the last touch of each key after [ex_ops]. *)
Definition ex_lt : string → nat :=
  λ k, if decide (k = "b") then 2%nat else if decide (k = "a") then 1%nat else 0%nat.

(** The same cache in the world of its sweeper, once the sweeper ticks. *)
Definition ex_world : World Z :=
  mkWorld ex_full (mkRuntime [false] [mkTask 0 4 (Ticking 25)]).

(** The full cache after [Set(c,3)] at time 7, which evicts [a]. *)
Definition ex_evicted : LRUCache Z :=
  Cache 2 100 (Some 0%nat) (<["c" := 2%nat]> (<["b" := 1%nat]> ∅))
        [Elem 2 (Item "c" (Some 3) 107); ex_b] 3.

(** The cache of [src/lruCache.go] with capacity 2: as constructed, and
    after [Set(a,1)] and [Set(b,2)]. *)
Definition ex_plain_new : NoTTL.LRUCache Z := NoTTL.Cache 2 ∅ [] 0.

Definition ex_plain_calls : list (Call Z) :=
  [CSet "a" (Some 1); CSet "b" (Some 2)].

Definition ex_plain_full : NoTTL.LRUCache Z :=
  NoTTL.Cache 2 (<["a" := 0%nat]> (<["b" := 1%nat]> ∅))
              [Elem 1 (NoTTL.Item "b" (Some 2)); Elem 0 (NoTTL.Item "a" (Some 1))] 2.
End ExampleCaches.

(** ** Notions used in the further properties *)

Section MoreNotions.
Context {V : Type}.

Definition is_SetGet (op : Op V) : bool :=
  match op with
  | OCall (CSet _ _) _ | OCall (CGet _) _ => true
  | _ => false
  end.

(** [run] with the log of the touched keys, the most recent touch first. *)
Fixpoint run_log (log : list Key) (ops : list (Op V)) (l : LRUCache V)
  : option (LRUCache V * list Key) :=
  match ops with
  | [] => Some (l, log)
  | op :: ops' =>
      match step op l with
      | None => None
      | Some l' =>
          run_log (match touched op l with Some k => k :: log | None => log end)
                  ops' l'
      end
  end.

(** The distinct keys of a log, each at the place of its most recent touch. *)
Fixpoint recency (log : list Key) : list Key :=
  match log with
  | [] => []
  | k :: log' => k :: filter (λ k', k' ≠ k) (recency log')
  end.

(** The value last given to each key by the [Set] calls of a sequence. *)
Definition set_value (acc : Key → option (option V)) (op : Op V)
  : Key → option (option V) :=
  match op with
  | OCall (CSet k v) _ => λ k', if decide (k' = k) then Some v else acc k'
  | _ => acc
  end.

Definition last_set (ops : list (Op V)) : Key → option (option V) :=
  foldl set_value (λ _, None) ops.

(** What [WithTTL] accepts, and the error it returns otherwise. *)
Definition valid_cfg (cfg : Duration * Z) : Prop := (0 < cfg.1 ∧ 1 < cfg.2)%Z.

Definition cfg_error (cfg : Duration * Z) : string :=
  if (cfg.1 <=? 0)%Z then "ttl duration must be positive"
  else "ticks must be greater 1".


(** The goroutines a list of valid TTL options starts, one for each option,
    when the first context created gets the number [n]. *)
Definition spawned (n : nat) (cfgs : list (Duration * Z)) : list Task :=
  imap (λ i cfg, mkTask (n + i) cfg.2 Spawned) cfgs.
End MoreNotions.

(** * Facts about the list model *)

Section ContainerListFacts.
Context {T : Type}.
Implicit Types (q : list (Element T)) (x : Element T) (e : nat).

Lemma l_elem_Some e q x : l_elem e q = Some x → x ∈ q ∧ eid x = e.
Proof.
  induction q as [|y q IH]; simpl; [done|].
  destruct (decide (eid y = e)) as [Hy|Hy].
  - intros [= ->]. split; [apply elem_of_cons; by left | done].
  - intros [Hin He]%IH. split; [apply elem_of_cons; by right | done].
Qed.

Lemma l_elem_None e q : l_elem e q = None → e ∉ eid <$> q.
Proof.
  induction q as [|y q IH]; simpl.
  - intros _ Hin. by apply elem_of_nil in Hin.
  - destruct (decide (eid y = e)) as [Hy|Hy]; [done|].
    intros Hn [Hin|Hin]%elem_of_cons; [congruence | by apply IH].
Qed.

Lemma l_Remove_notin e q : e ∉ eid <$> q → l_Remove e q = q.
Proof.
  unfold l_Remove. induction q as [|y q IH]; [done|].
  rewrite fmap_cons, not_elem_of_cons. intros [Hne Hq].
  rewrite filter_cons_True by congruence. by rewrite IH.
Qed.

Lemma l_SetValue_notin e (v : T) q : e ∉ eid <$> q → l_SetValue e v q = q.
Proof.
  unfold l_SetValue. induction q as [|y q IH]; [done|].
  rewrite !fmap_cons, not_elem_of_cons. intros [Hne Hq].
  destruct (decide (eid y = e)); [congruence|]. by rewrite IH.
Qed.

Lemma NoDup_ids_mid q1 x q2 :
  NoDup (eid <$> q1 ++ x :: q2) →
  (eid x ∉ (eid <$> q1)) ∧ (eid x ∉ (eid <$> q2)).
Proof.
  rewrite fmap_app, fmap_cons. intros (_ & Hd & [Hx _]%NoDup_cons)%NoDup_app.
  split; [|done]. intros Hin. apply (Hd _ Hin), elem_of_cons. by left.
Qed.

Lemma l_Remove_mid q1 x q2 :
  NoDup (eid <$> q1 ++ x :: q2) → l_Remove (eid x) (q1 ++ x :: q2) = q1 ++ q2.
Proof.
  intros [H1 H2]%NoDup_ids_mid. unfold l_Remove.
  rewrite filter_app, filter_cons_False by (intros Hne; by apply Hne).
  fold (l_Remove (eid x) q1) (l_Remove (eid x) q2).
  by rewrite !l_Remove_notin.
Qed.

Lemma l_SetValue_mid q1 x q2 (v : T) :
  NoDup (eid <$> q1 ++ x :: q2) →
  l_SetValue (eid x) v (q1 ++ x :: q2) = q1 ++ Elem (eid x) v :: q2.
Proof.
  intros [H1 H2]%NoDup_ids_mid. unfold l_SetValue.
  rewrite fmap_app, fmap_cons.
  fold (l_SetValue (eid x) v q1) (l_SetValue (eid x) v q2).
  rewrite !l_SetValue_notin by done.
  by destruct (decide (eid x = eid x)).
Qed.

Lemma l_elem_mid q1 x q2 :
  NoDup (eid <$> q1 ++ x :: q2) → l_elem (eid x) (q1 ++ x :: q2) = Some x.
Proof.
  intros [H1 _]%NoDup_ids_mid. induction q1 as [|y q1 IH]; simpl.
  - by destruct (decide (eid x = eid x)).
  - rewrite fmap_cons, not_elem_of_cons in H1. destruct H1 as [Hne H1].
    destruct (decide (eid y = eid x)); [congruence | by apply IH].
Qed.

Lemma l_elem_in q x : NoDup (eid <$> q) → x ∈ q → l_elem (eid x) q = Some x.
Proof.
  intros Hnd (q1 & q2 & ->)%list_elem_of_split. by apply l_elem_mid.
Qed.

Lemma l_MoveToFront_mid q1 x q2 :
  NoDup (eid <$> q1 ++ x :: q2) →
  l_MoveToFront (eid x) (q1 ++ x :: q2) = x :: q1 ++ q2.
Proof.
  intros Hnd. unfold l_MoveToFront.
  by rewrite l_elem_mid, l_Remove_mid.
Qed.

Lemma l_SetValue_same q x :
  NoDup (eid <$> q) → l_elem (eid x) q = Some x → l_SetValue (eid x) (Value x) q = q.
Proof.
  intros Hnd [(q1 & q2 & ->)%list_elem_of_split _]%l_elem_Some.
  rewrite l_SetValue_mid by done. by destruct x.
Qed.

(** Assigning the value of a node and moving it to the front. *)
Lemma l_touch_mid q1 x q2 (v : T) :
  NoDup (eid <$> q1 ++ x :: q2) →
  l_MoveToFront (eid x) (l_SetValue (eid x) v (q1 ++ x :: q2))
  = Elem (eid x) v :: q1 ++ q2.
Proof.
  intros Hnd. rewrite l_SetValue_mid by done.
  apply (l_MoveToFront_mid q1 (Elem (eid x) v) q2).
  by rewrite fmap_app, fmap_cons in *.
Qed.
End ContainerListFacts.

(** The list operations commute with a change of the values of the nodes. *)
Section ContainerListMap.
Context {T T' : Type} (f : T → T').
Implicit Types (q : list (Element T)) (e : nat).

Local Abbreviation map_node := (map_node f).

Lemma l_elem_map e q : l_elem e (map_node <$> q) = map_node <$> l_elem e q.
Proof.
  induction q as [|y q IH]; [done|]. rewrite fmap_cons. simpl.
  by destruct (decide (eid y = e)).
Qed.

Lemma l_Remove_map e q : l_Remove e (map_node <$> q) = map_node <$> l_Remove e q.
Proof.
  unfold l_Remove. induction q as [|y q IH]; [done|].
  rewrite fmap_cons, !filter_cons. simpl.
  destruct (decide (eid y ≠ e)); by rewrite IH.
Qed.

Lemma l_MoveToFront_map e q :
  l_MoveToFront e (map_node <$> q) = map_node <$> l_MoveToFront e q.
Proof.
  unfold l_MoveToFront. rewrite l_elem_map.
  destruct (l_elem e q); simpl; [|done]. by rewrite l_Remove_map.
Qed.

Lemma l_SetValue_map e (v : T) q :
  l_SetValue e (f v) (map_node <$> q) = map_node <$> l_SetValue e v q.
Proof.
  unfold l_SetValue. induction q as [|y q IH]; [done|].
  rewrite !fmap_cons, IH. simpl. by destruct (decide (eid y = e)).
Qed.

Lemma l_Back_map q : l_Back (map_node <$> q) = map_node <$> l_Back q.
Proof. apply fmap_last. Qed.
End ContainerListMap.

(** * Facts about the representation invariant *)

Section StoreFacts.
Context {V : Type}.
Implicit Types (q : list (Element (listItem V))) (x : Element (listItem V)).
Implicit Types (k : Key) (m : gmap Key nat) (n e : nat).

Lemma index_pairs_fst q : ((λ x, (ekey x, eid x)) <$> q).*1 = ekey <$> q.
Proof. induction q as [|y q IH]; [done|]. rewrite !fmap_cons. by f_equal. Qed.

Lemma index_of_cons x q : index_of (x :: q) = <[ekey x := eid x]> (index_of q).
Proof. done. Qed.

Lemma index_of_Some q k e :
  NoDup (ekey <$> q) →
  index_of q !! k = Some e ↔ ∃ x, x ∈ q ∧ ekey x = k ∧ eid x = e.
Proof.
  intros Hnd. unfold index_of.
  rewrite <-elem_of_list_to_map by by rewrite index_pairs_fst.
  rewrite list_elem_of_fmap. split.
  - intros (x & [= -> ->] & Hx). eauto.
  - intros (x & Hx & <- & <-). eauto.
Qed.

Lemma index_of_None q k : index_of q !! k = None ↔ k ∉ ekey <$> q.
Proof.
  unfold index_of. by rewrite <-not_elem_of_list_to_map, index_pairs_fst.
Qed.

Lemma size_index_of q : NoDup (ekey <$> q) → size (index_of q) = length q.
Proof.
  intros Hnd. unfold index_of.
  rewrite map_size_list_to_map by by rewrite index_pairs_fst.
  by rewrite length_fmap.
Qed.

Lemma index_of_perm q q' :
  NoDup (ekey <$> q) → q ≡ₚ q' → index_of q = index_of q'.
Proof.
  intros Hnd Hp. unfold index_of. apply list_to_map_proper.
  - by rewrite index_pairs_fst.
  - by apply fmap_Permutation.
Qed.

Lemma NoDup_keys_mid q1 x q2 :
  NoDup (ekey <$> q1 ++ x :: q2) →
  NoDup (ekey <$> q1 ++ q2) ∧ ekey x ∉ (ekey <$> q1 ++ q2).
Proof.
  intros Hnd.
  assert (Hp : ekey <$> q1 ++ x :: q2 ≡ₚ ekey x :: (ekey <$> q1 ++ q2)).
  { rewrite <-fmap_cons. apply fmap_Permutation.
    symmetry. apply Permutation_middle. }
  rewrite Hp in Hnd. apply NoDup_cons in Hnd. tauto.
Qed.

Lemma index_of_mid q1 x q2 :
  NoDup (ekey <$> q1 ++ x :: q2) →
  index_of (q1 ++ x :: q2) = <[ekey x := eid x]> (index_of (q1 ++ q2)).
Proof.
  intros Hnd. rewrite <-index_of_cons. apply index_of_perm; [done|].
  symmetry. apply Permutation_middle.
Qed.

Lemma index_of_mid_delete q1 x q2 :
  NoDup (ekey <$> q1 ++ x :: q2) →
  delete (ekey x) (index_of (q1 ++ x :: q2)) = index_of (q1 ++ q2).
Proof.
  intros Hnd. rewrite index_of_mid by done.
  rewrite delete_insert_eq. apply delete_id, index_of_None.
  by apply NoDup_keys_mid.
Qed.

Lemma wf_store_lookup m q n k e :
  wf_store m q n → m !! k = Some e →
  ∃ q1 x q2, q = q1 ++ x :: q2 ∧ eid x = e ∧ ekey x = k.
Proof.
  intros [-> Hk _ _] (x & Hx & Hxk & Hxe)%index_of_Some; [|done].
  apply list_elem_of_split in Hx as (q1 & q2 & ->). eauto 6.
Qed.

Lemma wf_store_absent m q n k :
  wf_store m q n → m !! k = None → k ∉ ekey <$> q.
Proof. intros [-> _ _ _]. apply index_of_None. Qed.

Lemma wf_store_size m q n : wf_store m q n → size m = length q.
Proof. intros [-> Hk _ _]. by apply size_index_of. Qed.

Lemma wf_store_empty n : wf_store (V:=V) ∅ [] n.
Proof. split; [done | apply NoDup_nil_2 | apply NoDup_nil_2 | done]. Qed.

(** A node is given a new value with the same key and moved to the front. *)
Lemma wf_store_touch m q1 x q2 n x' :
  wf_store m (q1 ++ x :: q2) n → ekey x' = ekey x → eid x' = eid x →
  wf_store m (x' :: q1 ++ q2) n.
Proof.
  intros [-> Hk Hi Hf] Hxk Hxe.
  assert (Hp : ∀ {B} (f : Element (listItem V) → B), f x' = f x →
             f <$> x' :: q1 ++ q2 ≡ₚ f <$> q1 ++ x :: q2).
  { intros B f Hfx. rewrite fmap_cons, Hfx, <-fmap_cons.
    apply fmap_Permutation, Permutation_middle. }
  split.
  - rewrite index_of_mid, index_of_cons by done. by rewrite Hxk, Hxe.
  - by rewrite (Hp _ ekey).
  - by rewrite (Hp _ eid).
  - apply Forall_app in Hf as [H1 [Hx H2]%Forall_cons].
    apply Forall_cons. split; [by rewrite Hxe|]. by apply Forall_app.
Qed.

(** A node is unlinked and its key deleted from the index. *)
Lemma wf_store_delete m q1 x q2 n :
  wf_store m (q1 ++ x :: q2) n → wf_store (delete (ekey x) m) (q1 ++ q2) n.
Proof.
  intros [-> Hk Hi Hf]. split.
  - by apply index_of_mid_delete.
  - by apply NoDup_keys_mid in Hk as [? _].
  - rewrite fmap_app, fmap_cons in Hi. rewrite fmap_app.
    apply NoDup_app in Hi as (H1 & Hd & [_ H2]%NoDup_cons).
    apply NoDup_app. split_and!; [done| |done].
    intros y Hy Hy2. apply (Hd y Hy), elem_of_cons. by right.
  - apply Forall_app in Hf as [H1 [Hx H2]%Forall_cons]. by apply Forall_app.
Qed.

(** A new node is linked at the front under a key that is not indexed. *)
Lemma wf_store_push m q n (it : listItem V) :
  wf_store m q n → m !! key it = None →
  wf_store (<[key it := n]> m) (Elem n it :: q) (S n).
Proof.
  intros Hwf Hnone. pose proof (wf_store_absent _ _ _ _ Hwf Hnone) as Hk'.
  destruct Hwf as [-> Hk Hi Hf]. split.
  - done.
  - rewrite fmap_cons. by apply NoDup_cons.
  - rewrite fmap_cons. apply NoDup_cons. split; [|done].
    intros (y & Hy & Hin)%list_elem_of_fmap. simpl in Hy.
    rewrite Forall_forall in Hf. specialize (Hf _ Hin). lia.
  - apply Forall_cons. split; [simpl; lia|].
    eapply Forall_impl; [done|]. simpl. lia.
Qed.
End StoreFacts.

(** * The operations on a well-formed cache *)

Section OperationFacts.
Context {V : Type}.
Implicit Types (l : LRUCache V) (q : list (Element (listItem V))).
Implicit Types (x : Element (listItem V)) (k : Key) (v : option V).

Lemma wf_size l : wf l → size (items l) = length (queue l).
Proof. intros [Hs _]. by eapply wf_store_size. Qed.

Lemma Set_hit l k v now e :
  wf l → items l !! k = Some e →
  ∃ q1 x q2, queue l = q1 ++ x :: q2 ∧ eid x = e ∧ ekey x = k ∧
    LRUCache_Set k v now l
    = Some (true, with_store (items l)
                    (Elem e (Item k v (stamp now l)) :: q1 ++ q2) (fresh l) l).
Proof.
  intros [Hs _] Hk.
  destruct (wf_store_lookup _ _ _ _ _ Hs Hk) as (q1 & x & q2 & Hq & He & Hx).
  exists q1, x, q2. split_and!; [done..|].
  unfold LRUCache_Set. rewrite Hk, Hq, <-He.
  rewrite l_touch_mid; [done|]. rewrite <-Hq. apply Hs.
Qed.

Lemma Set_miss l k v now :
  wf l → items l !! k = None → Z.of_nat (size (items l)) ≠ cap l →
  LRUCache_Set k v now l
  = Some (false, with_store (<[k := fresh l]> (items l))
                   (Elem (fresh l) (Item k v (stamp now l)) :: queue l)
                   (S (fresh l)) l).
Proof.
  intros _ Hk Hsz. unfold LRUCache_Set. rewrite Hk.
  by destruct (Z.eqb_spec (Z.of_nat (size (items l))) (cap l)).
Qed.

Lemma Set_evict l k v now :
  wf l → items l !! k = None → Z.of_nat (size (items l)) = cap l →
  ∃ q victim, queue l = q ++ [victim] ∧
    LRUCache_Set k v now l
    = Some (false, with_store (<[k := fresh l]> (delete (ekey victim) (items l)))
                     (Elem (fresh l) (Item k v (stamp now l)) :: q)
                     (S (fresh l)) l).
Proof.
  intros Hwf Hk Hsz. pose proof (wf_size _ Hwf) as Hlen.
  destruct Hwf as (Hs & Hcap & _).
  destruct (last (queue l)) as [victim|] eqn:Hlast.
  2:{ apply last_None in Hlast. rewrite Hlast in Hlen. simpl in Hlen. lia. }
  pose proof Hlast as Hl. apply last_Some in Hl as [q Hq].
  exists q, victim. split; [done|].
  unfold LRUCache_Set. rewrite Hk, Hsz, Z.eqb_refl.
  unfold l_Back. rewrite Hlast. unfold LRUCache_deleteItem. simpl.
  rewrite Hq, l_Remove_mid, app_nil_r; [done|].
  rewrite <-Hq. apply Hs.
Qed.

Lemma Get_miss l k now :
  items l !! k = None → LRUCache_Get k now l = Some ((None, false), l).
Proof. intros Hk. unfold LRUCache_Get. by rewrite Hk. Qed.

Lemma refreshed_key now l li : key (refreshed now l li) = key li.
Proof. unfold refreshed. by destruct (0 <? ttl l)%Z. Qed.

Lemma refreshed_value now l li : value (refreshed now l li) = value li.
Proof. unfold refreshed. by destruct (0 <? ttl l)%Z. Qed.

Lemma Get_hit l k now e :
  wf l → items l !! k = Some e →
  ∃ q1 x q2, queue l = q1 ++ x :: q2 ∧ eid x = e ∧ ekey x = k ∧
    LRUCache_Get k now l
    = Some ((value (Value x), true),
            with_store (items l)
              (Elem e (refreshed now l (Value x)) :: q1 ++ q2) (fresh l) l).
Proof.
  intros [Hs _] Hk.
  destruct (wf_store_lookup _ _ _ _ _ Hs Hk) as (q1 & x & q2 & Hq & He & Hx).
  exists q1, x, q2. split_and!; [done..|].
  assert (Hnd : NoDup (eid <$> q1 ++ x :: q2)) by (rewrite <-Hq; apply Hs).
  unfold LRUCache_Get. rewrite Hk, Hq, <-He, l_elem_mid by done.
  by rewrite l_touch_mid, refreshed_value.
Qed.

Lemma wf_with_store l m q n :
  wf_store m q n → (0 < cap l)%Z → (Z.of_nat (length q) ≤ cap l)%Z →
  wf (with_store m q n l).
Proof. by intros; split_and!. Qed.

Lemma wf_Set l k v now r l' :
  wf l → LRUCache_Set k v now l = Some (r, l') → wf l'.
Proof.
  intros Hwf Hset. pose proof (wf_size _ Hwf) as Hlen.
  pose proof Hwf as (Hs & Hcap & Hle).
  destruct (items l !! k) as [e|] eqn:Hk.
  - destruct (Set_hit l k v now e Hwf Hk) as (q1 & x & q2 & Hq & He & Hx & Heq).
    rewrite Heq in Hset. injection Hset as <- <-.
    rewrite Hq in Hs, Hle. apply wf_with_store; [|done|].
    + by eapply wf_store_touch.
    + rewrite length_app in Hle. simpl in *. rewrite length_app. lia.
  - destruct (decide (Z.of_nat (size (items l)) = cap l)) as [Hfull|Hfull].
    + destruct (Set_evict l k v now Hwf Hk Hfull) as (q & victim & Hq & Heq).
      rewrite Heq in Hset. injection Hset as <- <-.
      rewrite Hq in Hs, Hle.
      pose proof (wf_store_delete _ _ _ _ _ Hs) as Hs'. rewrite app_nil_r in Hs'.
      apply wf_with_store; [|done|].
      * apply (wf_store_push _ _ _ (Item k v (stamp now l)) Hs'). simpl.
        destruct (decide (ekey victim = k)) as [->|Hne].
        -- apply lookup_delete_eq.
        -- by rewrite lookup_delete_ne.
      * rewrite length_app in Hle. simpl in *. lia.
    + rewrite (Set_miss l k v now Hwf Hk Hfull) in Hset.
      injection Hset as <- <-. apply wf_with_store; [|done|].
      * by apply (wf_store_push _ _ _ (Item k v (stamp now l)) Hs).
      * simpl. lia.
Qed.

Lemma wf_Get l k now r l' :
  wf l → LRUCache_Get k now l = Some (r, l') → wf l'.
Proof.
  intros Hwf Hget. pose proof Hwf as (Hs & Hcap & Hle).
  destruct (items l !! k) as [e|] eqn:Hk.
  - destruct (Get_hit l k now e Hwf Hk) as (q1 & x & q2 & Hq & He & Hx & Heq).
    rewrite Heq in Hget. injection Hget as <- <-.
    rewrite Hq in Hs, Hle. apply wf_with_store; [|done|].
    + eapply wf_store_touch; [done| |done].
      unfold ekey. simpl. apply refreshed_key.
    + rewrite length_app in Hle. simpl in *. rewrite length_app. lia.
  - rewrite Get_miss in Hget by done. by injection Hget as <- <-.
Qed.

Lemma wf_Clear l : wf l → wf (fst (LRUCache_Clear l)).
Proof.
  intros (Hs & Hcap & Hle). unfold LRUCache_Clear.
  destruct (cancel l); simpl; (split_and!; [apply wf_store_empty|done|simpl; lia]).
Qed.

Lemma wf_deleteItem l q1 x q2 :
  wf l → queue l = q1 ++ x :: q2 →
  wf (LRUCache_deleteItem x l) ∧
  queue (LRUCache_deleteItem x l) = q1 ++ q2 ∧
  items (LRUCache_deleteItem x l) = delete (ekey x) (items l).
Proof.
  intros (Hs & Hcap & Hle) Hq. unfold LRUCache_deleteItem. simpl.
  rewrite Hq in Hs, Hle. rewrite Hq, l_Remove_mid by apply Hs.
  split_and!; [|done..]. apply wf_with_store; [|done|].
  - by apply wf_store_delete.
  - rewrite length_app in *. simpl in *. lia.
Qed.
End OperationFacts.

(** * The sweeper *)

Section SweeperFacts.
Context {V : Type}.
Implicit Types (l : LRUCache V) (q : list (Element (listItem V))).
Implicit Types (x : Element (listItem V)) (k : Key).

(** The loop started at the back node of a cache whose ordering is
    [reverse nodes]: it removes a prefix [removed] of the chain and keeps the
    rest. *)
Lemma clearExpired_loop_spec clk nodes : ∀ i l,
  wf l → queue l = reverse nodes →
  ∃ removed kept,
    nodes = removed ++ kept ∧
    wf (clearExpired_loop clk i nodes l) ∧
    queue (clearExpired_loop clk i nodes l) = reverse kept ∧
    (∀ k, items (clearExpired_loop clk i nodes l) !! k
          = if decide (k ∈ ekey <$> removed) then None else items l !! k) ∧
    (∀ j x, removed !! j = Some x → (expiresAt (Value x) - clk (i + j)%nat ≤ 0)%Z) ∧
    (∀ x, head kept = Some x →
          (0 < expiresAt (Value x) - clk (i + length removed)%nat)%Z).
Proof.
  induction nodes as [|node prevs IH]; intros i l Hwf Hq.
  - exists [], []. simpl. by split_and!.
  - simpl. destruct (Z.ltb_spec 0 (expiresAt (Value node) - clk i)) as [Hfut|Hexp].
    + exists [], (node :: prevs). simpl. split_and!; try done.
      intros x [= <-]. by rewrite Nat.add_0_r.
    + rewrite reverse_cons in Hq.
      destruct (wf_deleteItem l (reverse prevs) node [] Hwf Hq) as (Hwf1 & Hq1 & Hm1).
      rewrite app_nil_r in Hq1.
      destruct (IH (S i) _ Hwf1 Hq1) as (removed & kept & -> & Hwf' & Hq' & Hm' & Hr & Hk).
      exists (node :: removed), kept. split_and!; try done.
      * intros k. rewrite Hm', Hm1, fmap_cons.
        destruct (decide (k ∈ ekey <$> removed)) as [Hin|Hnin].
        -- rewrite decide_True; [done|]. apply elem_of_cons. by right.
        -- destruct (decide (k = ekey node)) as [->|Hne].
           ++ rewrite lookup_delete_eq, decide_True; [done|].
              apply elem_of_cons. by left.
           ++ rewrite lookup_delete_ne by done. rewrite decide_False; [done|].
              intros [?|?]%elem_of_cons; done.
      * intros [|j] x; simpl.
        -- intros [= <-]. by rewrite Nat.add_0_r.
        -- intros Hj. replace (i + S j) with (S i + j) by lia. by apply Hr.
      * intros x Hx. simpl. replace (i + S (length removed))
          with (S i + length removed) by lia. by apply Hk.
Qed.

(** The loop reads the clock once per node it inspects. *)
Lemma clearExpired_loop_readings clk clk' nodes : ∀ i l n,
  (∀ j x, j < n → nodes !! j = Some x →
          (expiresAt (Value x) - clk (i + j)%nat ≤ 0)%Z) →
  (∀ x, nodes !! n = Some x → (0 < expiresAt (Value x) - clk (i + n)%nat)%Z) →
  (∀ j, j ≤ n → clk' (i + j) = clk (i + j)) →
  clearExpired_loop clk' i nodes l = clearExpired_loop clk i nodes l.
Proof.
  induction nodes as [|node prevs IH]; intros i l n Hexp Hfut Hclk; [done|].
  simpl. rewrite <-(Nat.add_0_r i) at 1 3. rewrite Hclk by lia.
  rewrite Nat.add_0_r.
  destruct (Z.ltb_spec 0 (expiresAt (Value node) - clk i)) as [|Hle]; [done|].
  destruct n as [|n].
  - specialize (Hfut node eq_refl). rewrite Nat.add_0_r in Hfut. lia.
  - apply (IH _ _ n).
    + intros j x Hj Hx. replace (S i + j) with (i + S j) by lia.
      apply Hexp; [lia | done].
    + intros x Hx. replace (S i + n) with (i + S n) by lia. by apply Hfut.
    + intros j Hj. replace (S i + j) with (i + S j) by lia. apply Hclk. lia.
Qed.

Lemma clearExpired_loop_fields clk nodes : ∀ i l,
  cap (clearExpired_loop clk i nodes l) = cap l ∧
  ttl (clearExpired_loop clk i nodes l) = ttl l ∧
  cancel (clearExpired_loop clk i nodes l) = cancel l.
Proof.
  induction nodes as [|node prevs IH]; intros i l; simpl; [done|].
  destruct (0 <? _)%Z; [done|].
  destruct (IH (S i) (LRUCache_deleteItem node l)) as (-> & -> & ->). done.
Qed.

Lemma clearExpired_fields clk l :
  cap (clearExpired clk l) = cap l ∧ ttl (clearExpired clk l) = ttl l ∧
  cancel (clearExpired clk l) = cancel l.
Proof.
  unfold clearExpired. destruct (l_Len (queue l) =? 0)%Z; [done|].
  apply clearExpired_loop_fields.
Qed.

(** One tick, in the order of the ordering: the nodes [removed] at the back
    are unlinked and deleted from the index, the nodes [kept] stay. *)
Lemma clearExpired_spec clk l :
  wf l →
  ∃ kept removed,
    queue l = kept ++ removed ∧
    wf (clearExpired clk l) ∧
    queue (clearExpired clk l) = kept ∧
    (∀ k, items (clearExpired clk l) !! k
          = if decide (k ∈ ekey <$> removed) then None else items l !! k) ∧
    (∀ j x, reverse removed !! j = Some x →
            (expiresAt (Value x) - clk j ≤ 0)%Z) ∧
    (∀ x, last kept = Some x →
          (0 < expiresAt (Value x) - clk (length removed))%Z).
Proof.
  intros Hwf. unfold clearExpired.
  destruct (Z.eqb_spec (l_Len (queue l)) 0) as [Hlen|_].
  - exists [], []. unfold l_Len in Hlen.
    destruct (queue l); [|simpl in Hlen; lia]. by split_and!.
  - destruct (clearExpired_loop_spec clk (reverse (queue l)) 0 l Hwf)
      as (removed & kept & Hrev & Hwf' & Hq' & Hm' & Hr & Hk).
    { by rewrite reverse_involutive. }
    exists (reverse kept), (reverse removed). split_and!; try done.
    + by rewrite <-reverse_app, <-Hrev, reverse_involutive.
    + intros k. rewrite Hm'. destruct (decide (k ∈ ekey <$> removed)) as [Hin|Hnin].
      * rewrite decide_True; [done|]. by rewrite fmap_reverse, elem_of_reverse.
      * rewrite decide_False; [done|]. by rewrite fmap_reverse, elem_of_reverse.
    + intros j x. rewrite reverse_involutive. apply Hr.
    + intros x. rewrite last_reverse, length_reverse. apply Hk.
Qed.

Lemma wf_clearExpired clk l : wf l → wf (clearExpired clk l).
Proof. intros Hwf. by destruct (clearExpired_spec clk l Hwf) as (?&?&?&?&?). Qed.
End SweeperFacts.

(** * Construction and runs *)

Section RunFacts.
Context {V : Type}.
Implicit Types (l : LRUCache V) (rt : Runtime) (k : Key) (v : option V).

(** The shape of the ordering after one operation: the node of the touched
    key is at the front, and the other nodes are nodes of the old ordering,
    in the old order. *)
Lemma step_shape op l l' :
  wf l → step op l = Some l' →
  cap l' = cap l ∧
  (is_Clear op = false → ttl l' = ttl l) ∧
  match touched op l with
  | None => queue l' `sublist_of` queue l
  | Some k =>
      ∃ x q, queue l' = x :: q ∧ q `sublist_of` queue l ∧
        ekey x = k ∧ (k ∉ (ekey <$> q)) ∧
        ∀ c now, op = OCall c now →
          (0 < ttl l)%Z → expiresAt (Value x) = (now + ttl l)%Z
  end.
Proof.
  intros Hwf Hstep. pose proof Hwf as (Hs & _ & _).
  destruct op as [[k v|k|] now|clk]; simpl in *.
  - destruct (LRUCache_Set k v now l) as [[b l1]|] eqn:Hset; [|done].
    injection Hstep as ->. destruct (items l !! k) as [e|] eqn:Hk.
    + destruct (Set_hit l k v now e Hwf Hk) as (q1 & x & q2 & Hq & He & Hx & Heq).
      rewrite Heq in Hset. injection Hset as <- <-. simpl.
      split_and!; [done..|]. eexists _, _. split_and!; [done| |done| |].
      * rewrite Hq. apply sublist_app; [done|]. by apply sublist_cons.
      * rewrite <-Hx. rewrite Hq in Hs. by apply NoDup_keys_mid, Hs.
      * intros c now' [= _ <-] Httl. unfold stamp. simpl.
        by destruct (Z.ltb_spec 0 (ttl l)); [|lia].
    + assert (Hstamp : ∀ c now', OCall (V:=V) (CSet k v) now = OCall c now' →
                (0 < ttl l)%Z → stamp now l = (now' + ttl l)%Z).
      { intros c now' [= _ <-] Httl. unfold stamp.
        by destruct (Z.ltb_spec 0 (ttl l)); [|lia]. }
      destruct (decide (Z.of_nat (size (items l)) = cap l)) as [Hfull|Hfull].
      * destruct (Set_evict l k v now Hwf Hk Hfull) as (q & victim & Hq & Heq).
        rewrite Heq in Hset. injection Hset as <- <-. simpl.
        split_and!; [done..|]. eexists _, _. split_and!; [done| |done| |done].
        -- rewrite Hq. by apply sublist_inserts_r.
        -- pose proof (wf_store_absent _ _ _ _ Hs Hk) as Hnin.
           rewrite Hq, fmap_app in Hnin. intros Hin. apply Hnin, elem_of_app. by left.
      * rewrite (Set_miss l k v now Hwf Hk Hfull) in Hset.
        injection Hset as <- <-. simpl.
        split_and!; [done..|]. eexists _, _. split_and!; [done|done|done| |done].
        by eapply wf_store_absent.
  - destruct (LRUCache_Get k now l) as [[[v f] l1]|] eqn:Hget; [|done].
    injection Hstep as ->. destruct (items l !! k) as [e|] eqn:Hk.
    + destruct (Get_hit l k now e Hwf Hk) as (q1 & x & q2 & Hq & He & Hx & Heq).
      rewrite Heq in Hget. injection Hget as <- <- <-. simpl.
      split_and!; [done..|]. eexists _, _. split_and!; [done| | | |].
      * rewrite Hq. apply sublist_app; [done|]. by apply sublist_cons.
      * unfold ekey. simpl. by rewrite refreshed_key.
      * rewrite <-Hx. rewrite Hq in Hs. by apply NoDup_keys_mid, Hs.
      * intros c now' [= _ <-] Httl. unfold refreshed. simpl.
        by destruct (Z.ltb_spec 0 (ttl l)); [|lia].
    + rewrite Get_miss in Hget by done. by injection Hget as <- <- <-.
  - injection Hstep as <-. unfold LRUCache_Clear.
    destruct (cancel l); simpl; (split_and!; [done..|apply sublist_nil_l]).
  - injection Hstep as <-.
    destruct (clearExpired_fields clk l) as (-> & -> & _).
    destruct (clearExpired_spec clk l Hwf) as (kept & removed & -> & _ & -> & _).
    split_and!; [done..|]. by apply sublist_inserts_r.
Qed.

Lemma apply_options_ttl cfgs : ∀ l rt l' rt',
  apply_options (ttl_options cfgs) l rt = (None, l', rt') →
  cap l' = cap l ∧ items l' = items l ∧ queue l' = queue l ∧ fresh l' = fresh l
  ∧ (cfgs = [] → l' = l ∧ rt' = rt)
  ∧ (cfgs ≠ [] → (0 < ttl l')%Z ∧ is_Some (cancel l')).
Proof.
  induction cfgs as [|[t n] cfgs IH]; intros l rt l' rt'; simpl.
  - intros [= <- <-]. by split_and!.
  - unfold WithTTL at 1. simpl.
    destruct (Z.leb_spec t 0); [done|]. destruct (Z.leb_spec n 1); [done|].
    intros Happ. pose proof Happ as (Hc & Hi & Hq & Hf & Hnil & Hcons)%IH.
    simpl in *. split_and!; try done.
    intros _. destruct cfgs as [|cfg cfgs].
    + destruct Hnil as [-> _]; [done|]. simpl. split; [lia | by eexists].
    + by apply Hcons.
Qed.

Lemma New_ok c cfgs rt l rt' :
  New c (ttl_options cfgs) rt = (inl l, rt') →
  (0 < c)%Z ∧ cap l = c ∧ items l = ∅ ∧ queue l = [] ∧ wf l ∧ ttl_ok l.
Proof.
  unfold New. destruct (Z.leb_spec c 0); [done|].
  destruct (apply_options _ _ _) as [[[err|] l1] rt1] eqn:Happ; [done|].
  intros [= <- <-].
  apply apply_options_ttl in Happ as (Hc & Hi & Hq & Hf & Hnil & Hcons).
  simpl in *. split_and!; try done.
  - unfold wf. rewrite Hi, Hq, Hc. split_and!; [apply wf_store_empty | done | simpl; lia].
  - intros Hnone. destruct cfgs as [|cfg cfgs].
    + by destruct Hnil as [-> _].
    + destruct Hcons as [_ [? Hsome]]; [done|]. congruence.
Qed.

Lemma Set_total l k v now : wf l → is_Some (LRUCache_Set k v now l).
Proof.
  intros Hwf. destruct (items l !! k) as [e|] eqn:Hk.
  - destruct (Set_hit l k v now e Hwf Hk) as (?&?&?&_&_&_&->). by eexists.
  - destruct (decide (Z.of_nat (size (items l)) = cap l)) as [Hfull|Hfull].
    + destruct (Set_evict l k v now Hwf Hk Hfull) as (?&?&_&->). by eexists.
    + rewrite Set_miss by done. by eexists.
Qed.

Lemma Get_total l k now : wf l → is_Some (LRUCache_Get k now l).
Proof.
  intros Hwf. destruct (items l !! k) as [e|] eqn:Hk.
  - destruct (Get_hit l k now e Hwf Hk) as (?&?&?&_&_&_&->). by eexists.
  - rewrite Get_miss by done. by eexists.
Qed.

Lemma call_total c now l : wf l → is_Some (LRUCache_call c now l).
Proof.
  intros Hwf. destruct c as [k v|k|]; simpl.
  - destruct (Set_total l k v now Hwf) as [[b l'] ->]. by eexists.
  - destruct (Get_total l k now Hwf) as [[[v f] l'] ->]. by eexists.
  - by eexists.
Qed.

Lemma wf_call c now l r l' : wf l → LRUCache_call c now l = Some (r, l') → wf l'.
Proof.
  intros Hwf. destruct c as [k v|k|]; simpl.
  - destruct (LRUCache_Set k v now l) as [[b l1]|] eqn:Hset; [|done].
    intros [= _ <-]. by eapply wf_Set.
  - destruct (LRUCache_Get k now l) as [[[v f] l1]|] eqn:Hget; [|done].
    intros [= _ <-]. by eapply wf_Get.
  - intros [= _ <-]. by apply wf_Clear.
Qed.


Lemma wf_step op l l' : wf l → step op l = Some l' → wf l'.
Proof.
  intros Hwf. destruct op as [c now|clk]; simpl.
  - destruct (LRUCache_call c now l) as [[r l1]|] eqn:Hc; [|done].
    intros [= <-]. by eapply wf_call.
  - intros [= <-]. by apply wf_clearExpired.
Qed.

Lemma wf_run ops : ∀ l l', wf l → run ops l = Some l' → wf l'.
Proof.
  induction ops as [|op ops IH]; intros l l' Hwf; simpl.
  - by intros [= <-].
  - destruct (step op l) as [l1|] eqn:Hstep; [|done].
    apply IH. by eapply wf_step.
Qed.


Lemma run_app ops1 ops2 l :
  run (ops1 ++ ops2) l = run ops1 l ≫= run ops2.
Proof.
  revert l. induction ops1 as [|op ops1 IH]; intros l; simpl; [done|].
  destruct (step op l); [apply IH | done].
Qed.

Lemma run_touch_run ops : ∀ n lt l l' lt',
  run_touch n lt ops l = Some (l', lt') → run ops l = Some l'.
Proof.
  induction ops as [|op ops IH]; intros n lt l l' lt'; simpl.
  - by intros [= <- _].
  - destruct (step op l) as [l1|]; [|done]. apply IH.
Qed.
End RunFacts.

(** * Orders maintained along the ordering *)

Section OrderFacts.
Context {V : Type}.
Implicit Types (l : LRUCache V) (q : list (Element (listItem V))).
Implicit Types (x : Element (listItem V)) (k : Key).

Lemma StronglySorted_sublist {B} (R : relation B) (s s' : list B) :
  s' `sublist_of` s → StronglySorted R s → StronglySorted R s'.
Proof.
  induction 1 as [|b s1 s2 Hsub IH|b s1 s2 Hsub IH]; [done| |].
  - rewrite !StronglySorted_cons, !Forall_forall. intros [Hall Hs]. split; [|auto].
    intros y Hy. apply Hall. by eapply elem_of_sublist.
  - rewrite StronglySorted_cons. intros [_ Hs]. auto.
Qed.


Lemma Forall_sublist {B} (P : B → Prop) (s s' : list B) :
  s' `sublist_of` s → Forall P s → Forall P s'.
Proof.
  rewrite !Forall_forall. intros Hsub Hall y Hy. apply Hall.
  by eapply elem_of_sublist.
Qed.

(** A node goes to the front with a rank that dominates the ranks of the
    nodes that stay. *)
Lemma order_touch {B} (R : relation B) (f f' : Element (listItem V) → B) q x q' :
  StronglySorted R (f <$> q) → q' `sublist_of` q →
  (∀ y, y ∈ q' → f' y = f y) → (∀ y, y ∈ q' → R (f' x) (f y)) →
  StronglySorted R (f' <$> x :: q').
Proof.
  intros Hs Hsub Hsame Hdom.
  assert (Heq : f' <$> q' = f <$> q').
  { apply Forall_fmap_ext_1, Forall_forall. auto. }
  rewrite fmap_cons, Heq. apply StronglySorted_cons. split.
  - apply Forall_fmap, Forall_forall. intros y Hy. by apply Hdom.
  - eapply StronglySorted_sublist; [|done]. by apply fmap_sublist.
Qed.

(** Recency: along the ordering, front first, the step of the last touch
    decreases strictly. *)
Lemma run_touch_sorted ops : ∀ n lt l l' lt',
  wf l →
  StronglySorted (λ a b, b < a) ((λ x, lt (ekey x)) <$> queue l) →
  Forall (λ x, lt (ekey x) ≤ n) (queue l) →
  run_touch n lt ops l = Some (l', lt') →
  StronglySorted (λ a b, b < a) ((λ x, lt' (ekey x)) <$> queue l').
Proof.
  induction ops as [|op ops IH]; intros n lt l l' lt' Hwf Hs Hn; simpl.
  - by intros [= <- <-].
  - destruct (step op l) as [l1|] eqn:Hstep; [|done].
    pose proof (wf_step _ _ _ Hwf Hstep) as Hwf1.
    destruct (step_shape op l l1 Hwf Hstep) as (_ & _ & Hshape).
    apply IH; [done| |]; destruct (touched op l) as [k|].
    + destruct Hshape as (x & q & -> & Hsub & Hx & Hnin & _).
      assert (Hne : ∀ y, y ∈ q → ekey y ≠ k).
      { intros y Hy Heq. apply Hnin. rewrite <-Heq. by apply list_elem_of_fmap_2. }
      eapply order_touch; [done|done| |].
      * intros y Hy. simpl. pose proof (Hne y Hy). by destruct (decide _).
      * intros y Hy. simpl. rewrite Hx. destruct (decide (k = k)); [|done].
        rewrite Forall_forall in Hn. pose proof (Hn y) as Hle.
        enough (lt (ekey y) ≤ n) by lia. apply Hle. by eapply elem_of_sublist.
    + eapply StronglySorted_sublist; [|done]. by apply fmap_sublist.
    + destruct Hshape as (x & q & -> & Hsub & Hx & Hnin & _).
      apply Forall_cons. split.
      * rewrite Hx. destruct (decide (k = k)); [lia|done].
      * eapply Forall_impl; [by eapply Forall_sublist|].
        intros y Hy. simpl in *. destruct (decide _); lia.
    + eapply Forall_impl; [by eapply Forall_sublist|]. simpl. intros; lia.
Qed.

End OrderFacts.

(** * The claims of the specification *)

Section Claims.
Context {V : Type}.
Implicit Types (l : LRUCache V) (q : list (Element (listItem V))).
Implicit Types (x : Element (listItem V)) (k : Key) (v : option V).

(** Every state a constructed cache can be in satisfies the representation
    invariant [wf]; the theorems below that speak about a single operation
    are stated for a cache that satisfies it. *)
Lemma reachable_wf c cfgs rt l0 rt' ops l :
  New c (ttl_options cfgs) rt = (inl l0, rt') → run ops l0 = Some l → wf l.
Proof. intros (_&_&_&_&Hwf&_)%New_ok. by apply wf_run. Qed.

(** C3.  One tick of the sweeper splits the ordering into the nodes it keeps
    and a run [removed] of nodes at the back.  Every removed node had, at the
    moment it was inspected ([clk j] for the [j]-th node from the back), an
    expiration that was not in the future; it is gone from the ordering and
    from the index.  The scan stopped at the last kept node, whose expiration
    was in the future; the kept nodes and their index entries are untouched,
    and the clock was read for no node beyond that one. *)
Theorem clearExpired_removes_expired_back_run clk l :
  wf l →
  ∃ kept removed,
    queue l = kept ++ removed ∧
    queue (clearExpired clk l) = kept ∧
    (∀ k, items (clearExpired clk l) !! k
          = if decide (k ∈ ekey <$> removed) then None else items l !! k) ∧
    (∀ j x, reverse removed !! j = Some x →
            (expiresAt (Value x) - clk j ≤ 0)%Z) ∧
    (∀ x, last kept = Some x →
          (0 < expiresAt (Value x) - clk (length removed))%Z) ∧
    (∀ clk', (∀ j, j ≤ length removed → clk' j = clk j) →
             clearExpired clk' l = clearExpired clk l).
Proof.
  intros Hwf.
  destruct (clearExpired_spec clk l Hwf)
    as (kept & removed & Hq & _ & Hq' & Hm & Hr & Hk).
  exists kept, removed. split_and!; try done.
  intros clk' Hclk. unfold clearExpired.
  destruct (l_Len (queue l) =? 0)%Z; [done|].
  rewrite Hq, reverse_app.
  apply (clearExpired_loop_readings clk clk' _ 0 l (length removed)).
  - intros j x Hj. simpl. rewrite lookup_app_l by (rewrite length_reverse; lia).
    apply Hr.
  - intros x. simpl. rewrite lookup_app_r by (rewrite length_reverse; lia).
    rewrite length_reverse, Nat.sub_diag, <-head_lookup, head_reverse. apply Hk.
  - intros j Hj. simpl. by apply Hclk.
Qed.

(** C5.  [Get] on a key whose entry is present but expired ([expiresAt] is not
    after the clock reading [now]) returns the stored value with [true]; the
    entry stays indexed, its node moves to the front, and when TTL is on its
    expiration becomes [now + ttl].  [Get] does not look at [expiresAt]. *)
Theorem Get_revives_expired_entry l k now x :
  wf l → x ∈ queue l → ekey x = k → (expiresAt (Value x) ≤ now)%Z →
  ∃ l', LRUCache_Get k now l = Some ((value (Value x), true), l') ∧
    items l' = items l ∧ items l' !! k = Some (eid x) ∧
    ∃ li, head (queue l') = Some (Elem (eid x) li) ∧
      key li = k ∧ value li = value (Value x) ∧
      ((0 < ttl l)%Z → expiresAt li = (now + ttl l)%Z) ∧
      ((ttl l ≤ 0)%Z → li = Value x).
Proof.
  intros Hwf Hx Hk _. pose proof Hwf as (Hs & _).
  assert (Hidx : items l !! k = Some (eid x)).
  { destruct Hs as [-> Hkeys _ _]. apply index_of_Some; eauto. }
  destruct (Get_hit l k now (eid x) Hwf Hidx)
    as (q1 & x' & q2 & Hq & He & Hx' & Heq).
  assert (x' = x) as ->.
  { destruct Hs as [_ _ Hids _].
    pose proof (l_elem_in _ _ Hids Hx) as H1.
    rewrite Hq in Hids, H1. rewrite <-He, l_elem_mid in H1 by done.
    by injection H1. }
  eexists. split; [exact Heq|]. simpl. split_and!; [done|done|].
  eexists. split_and!; [done| | | |].
  - by rewrite refreshed_key.
  - by rewrite refreshed_value.
  - intros Httl. unfold refreshed. by destruct (Z.ltb_spec 0 (ttl l)); [|lia].
  - intros Httl. unfold refreshed. by destruct (Z.ltb_spec 0 (ttl l)); [lia|].
Qed.

(** C7.  [Set] returns [true] exactly when the key was indexed.  In that case
    the index is unchanged, the number of entries is unchanged, and the node
    the key was indexed under now holds the new item, at the front.  On a key
    that was not indexed [Set] returns [false] and inserts the item in a new
    node at the front. *)
Theorem Set_returns_whether_key_was_present l k v now :
  wf l →
  ∃ r l', LRUCache_Set k v now l = Some (r, l') ∧
    (r = true ↔ is_Some (items l !! k)) ∧
    (∀ e, items l !! k = Some e →
       items l' = items l ∧ size (items l') = size (items l) ∧
       length (queue l') = length (queue l) ∧
       head (queue l') = Some (Elem e (Item k v (stamp now l)))) ∧
    (items l !! k = None →
       r = false ∧ items l' !! k = Some (fresh l) ∧
       head (queue l') = Some (Elem (fresh l) (Item k v (stamp now l)))).
Proof.
  intros Hwf. destruct (items l !! k) as [e|] eqn:Hk.
  - destruct (Set_hit l k v now e Hwf Hk) as (q1 & x & q2 & Hq & He & Hx & Heq).
    eexists _, _. split; [exact Heq|]. simpl. split_and!.
    + split; [by eexists | done].
    + intros e' [= <-]. split_and!; [done..| |done].
      rewrite Hq, !length_app. simpl. lia.
    + done.
  - destruct (decide (Z.of_nat (size (items l)) = cap l)) as [Hfull|Hfull].
    + destruct (Set_evict l k v now Hwf Hk Hfull) as (q & victim & Hq & Heq).
      eexists _, _. split; [exact Heq|]. simpl. split_and!.
      * split; [done | by intros [? ?]].
      * done.
      * intros _. by rewrite lookup_insert_eq.
    + rewrite (Set_miss l k v now Hwf Hk Hfull).
      eexists _, _. split; [done|]. simpl. split_and!.
      * split; [done | by intros [? ?]].
      * done.
      * intros _. by rewrite lookup_insert_eq.
Qed.

Lemma run_touch_cap ops : ∀ n lt l l' lt',
  wf l → run_touch n lt ops l = Some (l', lt') → wf l' ∧ cap l' = cap l.
Proof.
  induction ops as [|op ops IH]; intros n lt l l' lt' Hwf; simpl.
  - by intros [= <- _].
  - destruct (step op l) as [l1|] eqn:Hstep; [|done]. intros Hrun.
    destruct (step_shape op l l1 Hwf Hstep) as (Hcap & _).
    apply IH in Hrun as [? ?]; [|by eapply wf_step]. split; [done | congruence].
Qed.

(** C1.  Take a cache constructed with capacity [c], in the state [l] a
    sequence of operations has brought it to; [lt k'] is the number of the
    last step that touched [k'].  A [Set] on a key that is not indexed while
    the index holds exactly [c] entries unlinks exactly the back node
    [victim], deletes exactly its key from the index, and inserts the new
    entry; the key of [victim] was touched less recently than the key of
    every other node, and a [Get] on it afterwards reports not found.  On
    every other occasion [Set] removes no key from the index and no node
    from the ordering. *)
Theorem Set_evicts_exactly_the_least_recently_touched
    c cfgs rt l0 rt' ops l lt k v now :
  New c (ttl_options cfgs) rt = (inl l0, rt') →
  run_touch 0 (λ _, 0) ops l0 = Some (l, lt) →
  ∃ r l', LRUCache_Set k v now l = Some (r, l') ∧
    if decide (items l !! k = None ∧ Z.of_nat (size (items l)) = c) then
      ∃ q victim,
        queue l = q ++ [victim] ∧
        (∀ x, x ∈ q → lt (ekey victim) < lt (ekey x)) ∧
        queue l' = Elem (fresh l) (Item k v (stamp now l)) :: q ∧
        items l' = <[k := fresh l]> (delete (ekey victim) (items l)) ∧
        ekey victim ≠ k ∧
        ∀ now', LRUCache_Get (ekey victim) now' l' = Some ((None, false), l')
    else
      (∀ k', is_Some (items l !! k') → is_Some (items l' !! k')) ∧
      (∀ x, x ∈ queue l → eid x ∈ eid <$> queue l').
Proof.
  intros (_ & Hc & _ & Hq0 & Hwf0 & _)%New_ok Hrun.
  destruct (run_touch_cap _ _ _ _ _ _ Hwf0 Hrun) as [Hwf Hcap].
  assert (Hsorted : StronglySorted (λ a b, b < a) ((λ x, lt (ekey x)) <$> queue l)).
  { eapply run_touch_sorted; [exact Hwf0| | |exact Hrun]; rewrite Hq0; constructor. }
  rewrite Hc in Hcap. clear Hrun Hwf0 Hq0 Hc.
  pose proof Hwf as (Hs & _). destruct (decide _) as [[Hk Hfull]|Hno].
  - rewrite <-Hcap in Hfull.
    destruct (Set_evict l k v now Hwf Hk Hfull) as (q & victim & Hq & Heq).
    eexists _, _. split; [exact Heq|]. exists q, victim. simpl.
    assert (Hne : ekey victim ≠ k).
    { intros Hv. apply (wf_store_absent _ _ _ _ Hs Hk). rewrite <-Hv, Hq.
      apply list_elem_of_fmap_2, elem_of_app. right. by apply list_elem_of_singleton. }
    split_and!; [done| |done|done|done|].
    + intros x Hx. rewrite Hq, fmap_app in Hsorted.
      apply (StronglySorted_app_1_elem_of _ _ _ _ _ Hsorted).
      * by apply (list_elem_of_fmap_2 (λ x, lt (ekey x))).
      * apply list_elem_of_singleton. done.
    + intros now'. apply Get_miss. simpl.
      rewrite lookup_insert_ne by done. apply lookup_delete_eq.
  - destruct (items l !! k) as [e|] eqn:Hk.
    + destruct (Set_hit l k v now e Hwf Hk) as (q1 & x & q2 & Hq & He & Hx & Heq).
      eexists _, _. split; [exact Heq|]. simpl. split; [done|].
      intros y Hy. rewrite Hq in Hy. apply elem_of_cons. rewrite fmap_app.
      apply elem_of_app in Hy as [Hy|[->|Hy]%elem_of_cons].
      * right. apply elem_of_app. left. by apply list_elem_of_fmap_2.
      * by left.
      * right. apply elem_of_app. right. by apply list_elem_of_fmap_2.
    + assert (Hnf : Z.of_nat (size (items l)) ≠ cap l).
      { intros Hfull. apply Hno. split; [done | congruence]. }
      rewrite (Set_miss l k v now Hwf Hk Hnf).
      eexists _, _. split; [done|]. simpl. split.
      * intros k' [e' Hk']. destruct (decide (k' = k)) as [->|Hne]; [congruence|].
        rewrite lookup_insert_ne by done. by eexists.
      * intros y Hy. apply elem_of_cons. right.
        by apply list_elem_of_fmap_2.
Qed.

(** [Get] removes nothing from the index or the ordering. *)
Lemma Get_removes_nothing l k now :
  wf l →
  ∃ r l', LRUCache_Get k now l = Some (r, l') ∧ items l' = items l ∧
          ∀ x, x ∈ queue l → eid x ∈ eid <$> queue l'.
Proof.
  intros Hwf. destruct (items l !! k) as [e|] eqn:Hk.
  - destruct (Get_hit l k now e Hwf Hk) as (q1 & x & q2 & Hq & He & Hx & Heq).
    eexists _, _. split; [exact Heq|]. simpl. split; [done|].
    intros y Hy. rewrite Hq in Hy. apply elem_of_cons. rewrite fmap_app.
    apply elem_of_app in Hy as [Hy|[->|Hy]%elem_of_cons].
    + right. apply elem_of_app. left. by apply list_elem_of_fmap_2.
    + by left.
    + right. apply elem_of_app. right. by apply list_elem_of_fmap_2.
  - rewrite Get_miss by done. eexists _, _. split; [done|]. split; [done|].
    intros y Hy. by apply list_elem_of_fmap_2.
Qed.




(** [Get] finds the node that carries the key. *)
Lemma Get_found l k now x :
  wf l → x ∈ queue l → ekey x = k →
  ∃ l', LRUCache_Get k now l = Some ((value (Value x), true), l').
Proof.
  intros Hwf Hx Hk. pose proof Hwf as (Hs & _).
  assert (Hidx : items l !! k = Some (eid x)).
  { destruct Hs as [-> Hkeys _ _]. apply index_of_Some; eauto. }
  destruct (Get_hit l k now (eid x) Hwf Hidx)
    as (q1 & x' & q2 & Hq & He & Hx' & Heq).
  assert (x' = x) as ->; [|by eexists].
  destruct Hs as [_ _ Hids _].
  pose proof (l_elem_in _ _ Hids Hx) as H1.
  rewrite Hq in Hids, H1. rewrite <-He, l_elem_mid in H1 by done.
  by injection H1.
Qed.

(** A [Set] that does not take the eviction branch: the key is indexed
    afterwards with the new value, every other key keeps its value. *)
Lemma Set_no_eviction l k0 v0 now :
  wf l → Set_evicts k0 l = false →
  ∃ r l', LRUCache_Set k0 v0 now l = Some (r, l') ∧ wf l' ∧ cap l' = cap l ∧
    dom (items l') = {[k0]} ∪ dom (items l) ∧
    ∀ k v, holds l' k v ↔ (k = k0 ∧ v = v0) ∨ (k ≠ k0 ∧ holds l k v).
Proof.
  intros Hwf Hev. pose proof Hwf as (Hs & _). unfold Set_evicts in Hev.
  destruct (items l !! k0) as [e|] eqn:Hk.
  - destruct (Set_hit l k0 v0 now e Hwf Hk) as (q1 & x & q2 & Hq & He & Hx & Heq).
    eexists _, _. split; [exact Heq|]. split; [by eapply wf_Set|].
    simpl. split_and!; [done| |].
    + apply (elem_of_dom_2 (D:=gset Key)) in Hk. set_solver.
    + rewrite Hq in Hs. destruct (NoDup_keys_mid _ _ _ (ws_keys _ _ _ Hs)) as [_ Hnin].
      intros k v. unfold holds. simpl. rewrite Hq. split.
      * intros (y & [->|Hy]%elem_of_cons & Hyk & Hyv).
        -- left. by rewrite <-Hyk, <-Hyv.
        -- right. split.
           ++ intros ->. apply Hnin. rewrite Hx, <-Hyk. by apply list_elem_of_fmap_2.
           ++ exists y. split_and!; [|done..].
              apply elem_of_app in Hy as [?|?]; apply elem_of_app; [by left|].
              right. apply elem_of_cons. by right.
      * intros [[-> ->]|(Hne & y & Hy & Hyk & Hyv)].
        -- eexists. split; [apply elem_of_cons; by left | done].
        -- exists y. split_and!; [|done..]. apply elem_of_cons. right.
           apply elem_of_app in Hy as [?|[->|?]%elem_of_cons];
             apply elem_of_app; [by left | congruence | by right].
  - destruct (Z.eqb_spec (Z.of_nat (size (items l))) (cap l)) as [|Hnf]; [done|].
    rewrite (Set_miss l k0 v0 now Hwf Hk Hnf).
    eexists _, _. split; [done|]. split.
    { eapply wf_Set; [done|]. by apply Set_miss. }
    simpl. split_and!; [done| |].
    + by rewrite dom_insert_L.
    + pose proof (wf_store_absent _ _ _ _ Hs Hk) as Hnin.
      intros k v. unfold holds. simpl. split.
      * intros (y & [->|Hy]%elem_of_cons & Hyk & Hyv).
        -- left. by rewrite <-Hyk, <-Hyv.
        -- right. split; [|by exists y].
           intros ->. apply Hnin. rewrite <-Hyk. by apply list_elem_of_fmap_2.
      * intros [[-> ->]|(Hne & y & Hy & Hyk & Hyv)].
        -- eexists. split; [apply elem_of_cons; by left | done].
        -- exists y. split_and!; [|done..]. apply elem_of_cons. by right.
Qed.

Lemma last_value_acc (sets : list (Key * option V * Time)) k : ∀ acc,
  foldl (λ acc s, if decide (s.1.1 = k) then Some s.1.2 else acc) acc sets
  = match last_value sets k with Some v => Some v | None => acc end.
Proof.
  unfold last_value. induction sets as [|s sets IH]; intros acc; simpl; [done|].
  rewrite IH. rewrite (IH (if decide (s.1.1 = k) then _ else None)).
  destruct (foldl _ None sets); [done|]. by destruct (decide _).
Qed.

Lemma last_value_cons (s : Key * option V * Time) sets k :
  last_value (s :: sets) k
  = match last_value sets k with
    | Some v => Some v
    | None => if decide (s.1.1 = k) then Some s.1.2 else None
    end.
Proof. unfold last_value at 1. simpl. apply last_value_acc. Qed.

Lemma last_value_is_Some (sets : list (Key * option V * Time)) k :
  k ∈ (λ s, s.1.1) <$> sets → is_Some (last_value sets k).
Proof.
  induction sets as [|s sets IH]; [by intros ?%elem_of_nil|].
  rewrite fmap_cons, last_value_cons. intros [->|Hin]%elem_of_cons.
  - destruct (last_value sets _); [by eexists|]. rewrite decide_True by done.
    by eexists.
  - destruct (IH Hin) as [v ->]. by eexists.
Qed.

Lemma run_sets_no_eviction (sets : list (Key * option V * Time)) : ∀ l,
  wf l →
  (Z.of_nat (size (dom (items l) ∪ list_to_set ((λ s, s.1.1) <$> sets)))
   ≤ cap l)%Z →
  ∃ l', run (set_ops sets) l = Some l' ∧ wf l' ∧
    (∀ pre s post, sets = pre ++ s :: post →
       ∃ lp, run (set_ops pre) l = Some lp ∧ Set_evicts s.1.1 lp = false) ∧
    (∀ k v, holds l' k v ↔
       match last_value sets k with
       | Some v' => v = v'
       | None => holds l k v
       end).
Proof.
  induction sets as [|[[k0 v0] now] sets IH]; intros l Hwf Hsize.
  - exists l. split_and!; [done|done| |done].
    intros pre s post Heq. by destruct pre.
  - rewrite fmap_cons, list_to_set_cons in Hsize. simpl in Hsize.
    assert (Hev : Set_evicts k0 l = false).
    { unfold Set_evicts. destruct (items l !! k0) eqn:Hk; [done|].
      apply Z.eqb_neq. rewrite <-size_dom.
      apply (not_elem_of_dom (D:=gset Key)) in Hk.
      assert (Hsub : size ({[k0]} ∪ dom (items l))
              ≤ size (dom (items l) ∪ ({[k0]} ∪ list_to_set ((λ s, s.1.1) <$> sets)))).
      { apply subseteq_size. set_solver. }
      rewrite size_union, size_singleton in Hsub by set_solver. lia. }
    destruct (Set_no_eviction l k0 v0 now Hwf Hev)
      as (r & l1 & Hset & Hwf1 & Hcap1 & Hdom1 & Hholds1).
    destruct (IH l1 Hwf1) as (l' & Hrun & Hwf' & Hpre & Hholds').
    { rewrite Hdom1, Hcap1.
      replace ({[k0]} ∪ dom (items l) ∪ list_to_set ((λ s, s.1.1) <$> sets))
        with (dom (items l) ∪ ({[k0]} ∪ list_to_set ((λ s, s.1.1) <$> sets)));
        [done|]. set_solver. }
    assert (Hstep : step (OCall (CSet k0 v0) now) l = Some l1).
    { simpl. by rewrite Hset. }
    exists l'. split_and!; [|done| |].
    + unfold set_ops. rewrite fmap_cons. simpl run. simpl in Hstep.
      by rewrite Hstep.
    + intros [|s0 pre] s post Heq; simplify_eq/=.
      * by exists l.
      * destruct (Hpre pre s post eq_refl) as (lp & Hlp & Hevp).
        exists lp. by rewrite Hset.
    + intros k v. rewrite Hholds', last_value_cons. simpl.
      destruct (last_value sets k) as [v'|]; [done|].
      rewrite Hholds1. destruct (decide (k0 = k)) as [->|Hne].
      * split; [intros [[_ ->]|[? _]]; done | intros ->; by left].
      * split; [intros [[-> _]|[_ ?]]; done | intros ?; right].
        (* no entry for [k] in [l]: it was never set *)
        split; [congruence | done].
Qed.

(** C6.  Take a freshly constructed cache of capacity [c] and a sequence of
    [Set] calls with at most [c] distinct keys.  No call of the sequence
    takes the eviction branch, and afterwards [Get] on every key of the
    sequence returns the value last set for it, with [true]. *)
Theorem Sets_within_capacity_evict_nothing
    c cfgs rt l0 rt' (sets : list (Key * option V * Time)) :
  New c (ttl_options cfgs) rt = (inl l0, rt') →
  (Z.of_nat (size (list_to_set (C:=gset Key) ((λ s, s.1.1) <$> sets))) ≤ c)%Z →
  ∃ l, run (set_ops sets) l0 = Some l ∧
    (∀ pre s post, sets = pre ++ s :: post →
       ∃ lp, run (set_ops pre) l0 = Some lp ∧ Set_evicts s.1.1 lp = false) ∧
    (∀ k, k ∈ (λ s, s.1.1) <$> sets → ∀ now,
       ∃ v l', last_value sets k = Some v ∧
               LRUCache_Get k now l = Some ((v, true), l')).
Proof.
  intros (_ & Hc & Hi0 & _ & Hwf0 & _)%New_ok Hsize.
  destruct (run_sets_no_eviction sets l0 Hwf0) as (l & Hrun & Hwf & Hpre & Hholds).
  { rewrite Hi0, dom_empty_L, Hc. by rewrite (left_id_L ∅ (∪)). }
  exists l. split_and!; [done..|].
  intros k Hk now. destruct (last_value_is_Some sets k Hk) as [v Hv].
  assert (Hh : holds l k v) by (apply Hholds; by rewrite Hv).
  destruct Hh as (x & Hx & Hxk & <-).
  destruct (Get_found l k now x Hwf Hx Hxk) as [l' Hget]. eauto.
Qed.
End Claims.

(** * The two implementations *)

Section Refinement.
Context {V : Type}.
Implicit Types (l : LRUCache V) (k : Key) (v : option V).

Lemma erase_cache_Set l k v now :
  wf l → ttl l = 0%Z →
  NoTTL.LRUCache_Set k v (erase_cache l)
  = prod_map id erase_cache <$> LRUCache_Set k v now l.
Proof.
  intros Hwf Httl. pose proof Hwf as (Hs & _).
  unfold NoTTL.LRUCache_Set, LRUCache_Set. simpl.
  destruct (items l !! k) as [e|] eqn:Hk.
  - destruct (wf_store_lookup _ _ _ _ _ Hs Hk) as (q1 & x & q2 & Hq & He & Hx).
    assert (Hel : l_elem e (queue l) = Some x).
    { rewrite Hq, <-He. apply l_elem_mid. rewrite <-Hq. apply Hs. }
    unfold erase_node. rewrite l_elem_map, Hel. simpl.
    unfold ekey in Hx. rewrite Hx.
    change (NoTTL.Item k v) with (erase (Item k v (stamp now l))).
    by rewrite l_SetValue_map, l_MoveToFront_map.
  - destruct (Z.of_nat (size (items l)) =? cap l)%Z.
    + unfold erase_node. rewrite l_Back_map.
      destruct (l_Back (queue l)) as [back|]; [|done]. simpl.
      unfold erase_cache. simpl. by rewrite l_Remove_map.
    + done.
Qed.

Lemma erase_cache_Get l k now :
  wf l → ttl l = 0%Z →
  NoTTL.LRUCache_Get k (erase_cache l)
  = prod_map id erase_cache <$> LRUCache_Get k now l.
Proof.
  intros Hwf Httl. pose proof Hwf as (Hs & _).
  unfold NoTTL.LRUCache_Get, LRUCache_Get. simpl.
  destruct (items l !! k) as [e|] eqn:Hk; [|done].
  unfold erase_node. rewrite l_elem_map.
  destruct (l_elem e (queue l)) as [x|] eqn:Hel; [|done]. simpl.
  assert (Hr : refreshed now l (Value x) = Value x).
  { unfold refreshed. by rewrite Httl. }
  rewrite Hr. unfold erase_cache. simpl. do 3 f_equal.
  rewrite l_MoveToFront_map. do 2 f_equal.
  pose proof Hel as [_ <-]%l_elem_Some.
  symmetry. apply l_SetValue_same; [apply Hs | done].
Qed.

Lemma erase_cache_call c now l :
  wf l → ttl l = 0%Z →
  NoTTL.LRUCache_call c (erase_cache l)
  = prod_map id erase_cache <$> LRUCache_call c now l.
Proof.
  intros Hwf Httl. destruct c as [k v|k|]; simpl.
  - rewrite (erase_cache_Set l k v now) by done.
    by destruct (LRUCache_Set k v now l) as [[b l']|].
  - rewrite (erase_cache_Get l k now) by done.
    by destruct (LRUCache_Get k now l) as [[[v f] l']|].
  - unfold LRUCache_Clear. by destruct (cancel l).
Qed.

Lemma call_ttl_off c now l r l' :
  ttl l = 0%Z → LRUCache_call c now l = Some (r, l') → ttl l' = 0%Z.
Proof.
  intros Httl. destruct c as [k v|k|]; simpl.
  - unfold LRUCache_Set. destruct (items l !! k); [by intros [= _ <-]|].
    destruct (if (_ =? _)%Z then _ else _) as [l1|] eqn:Hl1; [|done].
    intros [= _ <-]. simpl.
    destruct (_ =? _)%Z; [|by injection Hl1 as <-].
    destruct (l_Back (queue l)); [by injection Hl1 as <-|done].
  - unfold LRUCache_Get. destruct (items l !! k); [|by intros [= _ <-]].
    destruct (l_elem _ _); [by intros [= _ <-]|done].
  - intros [= _ <-]. unfold LRUCache_Clear. by destruct (cancel l).
Qed.

Lemma run_calls_erase (calls : list (Call V * Time)) : ∀ l,
  wf l → ttl l = 0%Z →
  ∃ rs l', run_calls calls l = Some (rs, l') ∧
           NoTTL.run_calls calls.*1 (erase_cache l) = Some (rs, erase_cache l').
Proof.
  induction calls as [|[c now] calls IH]; intros l Hwf Httl.
  - by exists [], l.
  - rewrite fmap_cons. simpl.
    rewrite (erase_cache_call c now l Hwf Httl).
    destruct (call_total c now l Hwf) as [[r l1] Hcall]. rewrite Hcall. simpl.
    destruct (IH l1) as (rs & l' & -> & ->).
    { by eapply wf_call. } { by eapply call_ttl_off. }
    by exists (r :: rs), l'.
Qed.

(** C10.  The cache of [src/lruCache.go] and the cache of [src/lru.go]
    constructed without options fail to construct for the same capacities
    with the same error; otherwise, started together, they return the same
    results for every sequence of [Set], [Get] and [Clear] calls (whatever
    the clock readings), and after the sequence (hence after each of its
    prefixes) they have the same index and the same nodes in the same order
    with the same keys and values. *)
Theorem NoTTL_cache_and_cache_without_options_agree
    c rt (calls : list (Call V * Time)) :
  match NoTTL.New (V:=V) c, New c [] rt with
  | inl s0, (inl l0, _) =>
      s0 = erase_cache l0 ∧
      ∃ rs l, run_calls calls l0 = Some (rs, l) ∧
              NoTTL.run_calls calls.*1 s0 = Some (rs, erase_cache l)
  | inr e, (inr e', _) => e = e'
  | _, _ => False
  end.
Proof.
  unfold NoTTL.New, New. simpl. destruct (Z.leb_spec c 0); [done|].
  split; [done|].
  apply (run_calls_erase calls (Cache c 0%Z None ∅ l_Init 0)); [|done].
  split_and!; [apply wf_store_empty | done | simpl; lia].
Qed.
End Refinement.

(** * Construction, the sweeper goroutine and Clear *)

Section RuntimeFacts.
Context {V : Type}.
Implicit Types (l : LRUCache V) (w : World V) (rt : Runtime).

(** Validation in [New] with no option or one [WithTTL] option. *)
Lemma New_without_options c rt :
  New (V:=V) c [] rt
  = if (c <=? 0)%Z then (inr "cap must be positive", rt)
    else (inl (Cache c 0%Z None ∅ [] 0), rt).
Proof. unfold New. by destruct (c <=? 0)%Z. Qed.

Lemma New_with_ttl c t n rt :
  New (V:=V) c [WithTTL t n] rt
  = if (c <=? 0)%Z then (inr "cap must be positive", rt)
    else if (t <=? 0)%Z then (inr "ttl duration must be positive", rt)
    else if (n <=? 1)%Z then (inr "ticks must be greater 1", rt)
    else (inl (Cache c t (Some (length (contexts rt))) ∅ [] 0),
          mkRuntime (contexts rt ++ [false])
                    (tasks rt ++ [mkTask (length (contexts rt)) n Spawned])).
Proof.
  unfold New, WithTTL. simpl.
  destruct (c <=? 0)%Z; [done|]. destruct (t <=? 0)%Z; [done|].
  by destruct (n <=? 1)%Z.
Qed.

(** Construction fails exactly when the capacity, the ttl or the ticks are
    out of range, with an error of the kind the specification names, and
    then no goroutine is started. *)
Lemma New_fails_iff c t n rt :
  ((∃ err, New (V:=V) c [] rt = (inr err, rt) ∧ error_kind err = Some InvalidCapacity)
    ↔ (c ≤ 0)%Z)
  ∧ ((∃ err rt', New (V:=V) c [WithTTL t n] rt = (inr err, rt'))
    ↔ (c ≤ 0 ∨ t ≤ 0 ∨ n ≤ 1)%Z)
  ∧ (∀ err rt', New (V:=V) c [WithTTL t n] rt = (inr err, rt') →
       rt' = rt ∧
       error_kind err = Some (if (c <=? 0)%Z then InvalidCapacity
                              else InvalidTTLConfig)).
Proof.
  rewrite New_without_options, New_with_ttl.
  destruct (Z.leb_spec c 0); [|destruct (Z.leb_spec t 0); [|destruct (Z.leb_spec n 1)]].
  - split_and!.
    + split; [done|]. intros _. by eexists.
    + split; [lia|]. intros _. by eexists _, _.
    + by intros err rt' [= <- <-].
  - split_and!.
    + split; [by intros (? & [=] & _) | lia].
    + split; [lia|]. intros _. by eexists _, _.
    + by intros err rt' [= <- <-].
  - split_and!.
    + split; [by intros (? & [=] & _) | lia].
    + split; [lia|]. intros _. by eexists _, _.
    + by intros err rt' [= <- <-].
  - split_and!.
    + split; [by intros (? & [=] & _) | lia].
    + split; [by intros (? & ? & [=]) | lia].
    + by intros err rt'.
Qed.

(** After a successful construction with the TTL option the goroutine, when
    it runs before anything else, starts a ticker of period [t / n] if that
    is positive. *)
Lemma sweeper_starts_when_period_positive c t n l rt' :
  New (V:=V) c [WithTTL t n] (mkRuntime [] []) = (inl l, rt') →
  (0 < t `quot` n)%Z →
  exec (EStart 0) (mkWorld l rt')
  = Some (mkWorld l (mkRuntime [false] [mkTask 0 n (Ticking (t `quot` n)%Z)])).
Proof.
  rewrite New_with_ttl.
  destruct (c <=? 0)%Z; [done|]. destruct (t <=? 0)%Z; [done|].
  destruct (n <=? 1)%Z; [done|]. intros [= <- <-] Hpos.
  unfold exec. simpl. unfold NewTicker.
  by destruct (Z.leb_spec (t `quot` n) 0); [lia|].
Qed.

Lemma exec_crashed e w w' : exec e w = Some w' → crashed (w_rt w) = false.
Proof. unfold exec. by destruct (crashed (w_rt w)). Qed.

(** A goroutine that has returned stays returned. *)
Lemma exec_returned e w w' i t :
  exec e w = Some w' → tasks (w_rt w) !! i = Some t → t_state t = Returned →
  ∃ t', tasks (w_rt w') !! i = Some t' ∧ t_state t' = Returned.
Proof.
  unfold exec. destruct (crashed (w_rt w)); [done|].
  intros Hexec Hi Hst. destruct e as [c now|j|j clk|j].
  - destruct c as [k v|k|].
    + destruct (LRUCache_call _ _ _) as [[? ?]|]; [|done].
      injection Hexec as <-. eauto.
    + destruct (LRUCache_call _ _ _) as [[? ?]|]; [|done].
      injection Hexec as <-. eauto.
    + destruct (LRUCache_Clear _) as [l' c]. injection Hexec as <-.
      destruct c; simpl; eauto.
  - destruct (tasks (w_rt w) !! j) as [tj|] eqn:Hj; [|done].
    destruct (t_state tj) eqn:Hstj; try done. injection Hexec as <-. simpl.
    destruct (decide (i = j)) as [->|Hne]; [congruence|].
    rewrite list_lookup_insert_ne by done. eauto.
  - destruct (tasks (w_rt w) !! j) as [tj|]; [|done].
    destruct (t_state tj); try done. injection Hexec as <-. eauto.
  - destruct (tasks (w_rt w) !! j) as [tj|] eqn:Hj; [|done].
    destruct (t_state tj) eqn:Hstj; try done.
    destruct (contexts (w_rt w) !! t_ctx tj) as [[|]|]; try done.
    injection Hexec as <-. simpl.
    destruct (decide (i = j)) as [->|Hne]; [congruence|].
    rewrite list_lookup_insert_ne by done. eauto.
Qed.

Lemma exec_all_returned es : ∀ w w' i t,
  exec_all es w = Some w' → tasks (w_rt w) !! i = Some t → t_state t = Returned →
  ∃ t', tasks (w_rt w') !! i = Some t' ∧ t_state t' = Returned.
Proof.
  induction es as [|e es IH]; intros w w' i t; simpl.
  - intros [= <-]. eauto.
  - destruct (exec e w) as [w1|] eqn:He; [|done]. intros Hall Hi Hst.
    destruct (exec_returned _ _ _ _ _ He Hi Hst) as (t1 & Hi1 & Hst1). eauto.
Qed.

Lemma tick_of_returned w i t clk :
  tasks (w_rt w) !! i = Some t → t_state t = Returned →
  exec (ETick i clk) w = None.
Proof.
  intros Hi Hst. unfold exec. destruct (crashed _); [done|].
  by rewrite Hi, Hst.
Qed.
End RuntimeFacts.

Section RuntimeClaims.
Context {V : Type}.
Implicit Types (l : LRUCache V) (w : World V) (rt : Runtime).



(** C8 (what the code does on a valid TTL option whose [ttl] is smaller than
    [ticks] nanoseconds).  [New(1, WithTTL(1, 2))] succeeds and starts the
    goroutine, but the period [1 / 2] of its ticker is [0]:
    [time.NewTicker] panics, no sweeper ever ticks and the program stops. *)
Theorem New_with_ttl_below_ticks_starts_no_sweeper :
  ∃ l rt,
    New (V:=V) 1 [WithTTL 1 2] (mkRuntime [] []) = (inl l, rt) ∧
    tasks rt = [mkTask 0 2 Spawned] ∧
    (ttl l `quot` 2 = 0)%Z ∧
    ∃ w, exec (EStart 0) (mkWorld l rt) = Some w ∧
         tasks (w_rt w) = [mkTask 0 2 Panicked] ∧
         ∀ e, exec e w = None.
Proof.
  eexists _, _. split; [reflexivity|]. simpl. split_and!; [done..|].
  eexists. split; [reflexivity|]. split; [done|]. by intros e.
Qed.

(** What [Clear] does guarantee.  It cannot fail; it sets [ttl] to [0], so
    that later calls stamp no expiration, empties the index and the
    ordering, and calls the cancel function if there is one, which makes the
    cancellation branch of the sweeper available and changes no goroutine.
    Once a sweeper has taken its cancellation branch it never ticks again,
    whatever the clock shows. *)
Lemma Clear_resets_and_cancels w now :
  crashed (w_rt w) = false → ttl_ok (w_cache w) →
  ∃ w1, exec (ECall CClear now) w = Some w1 ∧
    ttl (w_cache w1) = 0%Z ∧
    (∀ now' li, stamp now' (w_cache w1) = 0%Z ∧ refreshed now' (w_cache w1) li = li) ∧
    items (w_cache w1) = ∅ ∧ size (items (w_cache w1)) = 0 ∧
    queue (w_cache w1) = [] ∧ l_Len (queue (w_cache w1)) = 0%Z ∧
    tasks (w_rt w1) = tasks (w_rt w) ∧
    (∀ ctx i t d, cancel (w_cache w) = Some ctx →
       ctx < length (contexts (w_rt w)) →
       tasks (w_rt w) !! i = Some t → t_ctx t = ctx → t_state t = Ticking d →
       ∃ w2, exec (EDone i) w1 = Some w2 ∧
             tasks (w_rt w2) !! i = Some (mkTask ctx (t_ticks t) Returned)) ∧
    (∀ es w2 i t, exec_all es w1 = Some w2 →
       tasks (w_rt w2) !! i = Some t → t_state t = Returned →
       ∀ es' w3, exec_all es' w2 = Some w3 →
       ∀ clk, exec (ETick i clk) w3 = None).
Proof.
  intros Hcr Hok. destruct w as [l rt]. simpl in *.
  unfold exec. simpl. rewrite Hcr. unfold LRUCache_Clear.
  eexists. split; [reflexivity|]. simpl.
  assert (Httl : ttl (match cancel l with
                      | Some _ => Cache (cap l) 0%Z (cancel l) (items l) (queue l) (fresh l)
                      | None => l
                      end) = 0%Z).
  { destruct (cancel l) eqn:Hc; [done | by apply Hok]. }
  split_and!; try done.
  - intros now' li. unfold stamp, refreshed. simpl. by rewrite Httl.
  - by destruct (cancel l).
  - intros ctx i t d Hc Hctx Hi Hti Hst. rewrite Hc. simpl.
    assert (Hcr' : crashed (mkRuntime (<[ctx:=true]> (contexts rt)) (tasks rt)) = false)
      by done.
    rewrite Hcr'. rewrite Hi, Hst, Hti, list_lookup_insert_eq by done.
    eexists. split; [reflexivity|]. simpl.
    rewrite list_lookup_insert_eq; [by rewrite Hti|]. by eapply lookup_lt_Some.
  - intros es w2 i t Hes Hi Hst es' w3 Hes' clk.
    destruct (exec_all_returned _ _ _ _ _ Hes' Hi Hst) as (t' & Hi' & Hst').
    by eapply tick_of_returned.
Qed.

(** C2 (what the code does in [Clear]).  [Clear] takes no lock: it writes
    [items] and [queue] (and [ttl], when there is a cancel function) while
    the mutex is not held.  [Set] reads [ttl] before it locks. *)
Theorem Clear_accesses_shared_state_without_lock l k :
  (A_Lock ∉ Clear_accesses l) ∧
  A_Write F_items ∈ Clear_accesses l ∧ A_Write F_queue ∈ Clear_accesses l ∧
  (is_Some (cancel l) → A_Write F_ttl ∈ Clear_accesses l) ∧
  guarded false (Clear_accesses l) = false ∧
  guarded false (Set_accesses k l) = false.
Proof.
  split_and!.
  - unfold Clear_accesses. destruct (cancel l); compute_done.
  - unfold Clear_accesses. destruct (cancel l); compute_done.
  - unfold Clear_accesses. destruct (cancel l); compute_done.
  - intros [c Hc]. unfold Clear_accesses. rewrite Hc. compute_done.
  - unfold Clear_accesses. by destruct (cancel l).
  - done.
Qed.

(** [Get] and a tick of the sweeper hold the mutex from their first access
    to the shared state to their last, and lock it once. *)
Lemma Get_and_clearExpired_hold_the_lock l k clk :
  guarded false (Get_accesses k l) = true ∧
  locks_once (Get_accesses k l) = true ∧
  guarded false (clearExpired_accesses clk l) = true ∧
  locks_once (clearExpired_accesses clk l) = true.
Proof.
  assert (Hloop : ∀ (nodes : list (Element (listItem V))) i tl,
    guarded true (clearExpired_loop_accesses clk i nodes ++ tl) = guarded true tl ∧
    filter (λ a, a = A_Lock) (clearExpired_loop_accesses clk i nodes ++ tl)
    = filter (λ a, a = A_Lock) tl).
  { induction nodes as [|node prevs IH]; intros i tl; [done|]. simpl.
    destruct (0 <? _)%Z; [done|]. simpl. apply IH. }
  unfold Get_accesses, clearExpired_accesses, locks_once. split_and!.
  - destruct (items l !! k); [|done]. by destruct (0 <? ttl l)%Z.
  - destruct (items l !! k); [|done]. by destruct (0 <? ttl l)%Z.
  - destruct (l_Len (queue l) =? 0)%Z; [done|]. simpl.
    by destruct (Hloop (reverse (queue l)) 0 [A_Unlock]) as [-> _].
  - destruct (l_Len (queue l) =? 0)%Z; [done|]. simpl.
    rewrite !filter_cons. simpl.
    by destruct (Hloop (reverse (queue l)) 0 [A_Unlock]) as [_ ->].
Qed.
End RuntimeClaims.

(** * Concrete runs *)

Section Examples.
Local Open Scope Z_scope.

Lemma ex_new_constructed :
  New 2 (ttl_options [(100, 4)]) (mkRuntime [] []) = (inl ex_new, ex_rt).
Proof. reflexivity. Qed.

Lemma ex_full_reached : run ex_ops ex_new = Some ex_full.
Proof. vm_compute. reflexivity. Qed.

Lemma ex_full_touched :
  run_touch 0 (λ _, 0%nat) ex_ops ex_new = Some (ex_full, ex_lt).
Proof. reflexivity. Qed.

Lemma ex_full_wf : wf ex_full.
Proof. exact (reachable_wf _ _ _ _ _ _ _ ex_new_constructed ex_full_reached). Qed.

(** Eviction on the example: [Set(c,3)] at time 7 on the full cache. *)
Lemma Set_evicts_exactly_the_least_recently_touched_witness :
  New 2 (ttl_options [(100, 4)]) (mkRuntime [] []) = (inl ex_new, ex_rt) ∧
  run_touch 0 (λ _, 0%nat) ex_ops ex_new = Some (ex_full, ex_lt) ∧
  ∃ r l', LRUCache_Set "c" (Some 3) 7 ex_full = Some (r, l') ∧
    if decide (items ex_full !! "c" = None ∧ Z.of_nat (size (items ex_full)) = 2) then
      ∃ q victim,
        queue ex_full = q ++ [victim] ∧
        (∀ x, x ∈ q → (ex_lt (ekey victim) < ex_lt (ekey x))%nat) ∧
        queue l' = Elem (fresh ex_full) (Item "c" (Some 3) (stamp 7 ex_full)) :: q ∧
        items l' = <["c" := fresh ex_full]> (delete (ekey victim) (items ex_full)) ∧
        ekey victim ≠ "c" ∧
        ∀ now', LRUCache_Get (ekey victim) now' l' = Some ((None, false), l')
    else
      (∀ k', is_Some (items ex_full !! k') → is_Some (items l' !! k')) ∧
      (∀ x, x ∈ queue ex_full → eid x ∈ eid <$> queue l').
Proof.
  split; [reflexivity|]. split; [reflexivity|].
  exact (Set_evicts_exactly_the_least_recently_touched
           2 [(100, 4)] (mkRuntime [] []) ex_new ex_rt ex_ops ex_full ex_lt
           "c" (Some 3) 7 ex_new_constructed ex_full_touched).
Defined.

(** A tick on the example, at time 105. *)
Lemma clearExpired_removes_expired_back_run_witness :
  wf ex_full ∧
  ∃ kept removed,
    queue ex_full = kept ++ removed ∧
    queue (clearExpired (λ _, 105) ex_full) = kept ∧
    (∀ k, items (clearExpired (λ _, 105) ex_full) !! k
          = if decide (k ∈ ekey <$> removed) then None else items ex_full !! k) ∧
    (∀ j x, reverse removed !! j = Some x → expiresAt (Value x) - 105 ≤ 0) ∧
    (∀ x, last kept = Some x → 0 < expiresAt (Value x) - 105) ∧
    (∀ clk', (∀ j, (j ≤ length removed)%nat → clk' j = 105) →
             clearExpired clk' ex_full = clearExpired (λ _, 105) ex_full).
Proof.
  split; [exact ex_full_wf|].
  exact (clearExpired_removes_expired_back_run (λ _, 105) ex_full ex_full_wf).
Defined.

(** [Set(c,3)] on the full cache evicts [a], the back node. *)
Example ex_evict :
  LRUCache_Set "c" (Some 3) 7 ex_full
  = Some (false,
          Cache 2 100 (Some 0%nat) (<["c" := 2%nat]> (<["b" := 1%nat]> ∅))
                [Elem 2 (Item "c" (Some 3) 107); ex_b] 3).
Proof. vm_compute. reflexivity. Qed.

(** The scenario of the specification (section 8): capacity 2, no TTL. *)
Example ex_scenario_without_ttl :
  fst <$> (run_calls
             [(CSet "A" (Some 1), 0); (CSet "B" (Some 2), 0); (CSet "C" (Some 3), 0);
              (CGet "A", 0); (CGet "B", 0); (CGet "C", 0)]
             (Cache 2 0 None ∅ [] 0))
  = Some [RSet false; RSet false; RSet false;
          RGet None false; RGet (Some 2) true; RGet (Some 3) true].
Proof. vm_compute. reflexivity. Qed.

(** The scenario of the specification with TTL: capacity 2, ttl 100 ms and 4
    ticks; [A] and [B] are set and not touched again; the ticks of the first
    100 ms remove nothing, the next tick removes both. *)
Example ex_scenario_with_ttl :
  (λ w, (queue (w_cache w), size (items (w_cache w)))) <$>
    exec_all [EStart 0;
              ECall (CSet "A" (Some 1)) 1000; ECall (CSet "B" (Some 2)) 2000;
              ETick 0 (λ _, 25000000); ETick 0 (λ _, 50000000);
              ETick 0 (λ _, 75000000); ETick 0 (λ _, 100000000)]
             (mkWorld (Cache 2 100000000 (Some 0%nat) ∅ [] 0)
                      (mkRuntime [false] [mkTask 0 4 Spawned]))
  = Some ([Elem 1 (Item "B" (Some 2) 100002000);
           Elem 0 (Item "A" (Some 1) 100001000)], 2%nat) ∧
  (λ w, (queue (w_cache w), size (items (w_cache w)))) <$>
    exec_all [EStart 0;
              ECall (CSet "A" (Some 1)) 1000; ECall (CSet "B" (Some 2)) 2000;
              ETick 0 (λ _, 100000000); ETick 0 (λ _, 125000000)]
             (mkWorld (Cache 2 100000000 (Some 0%nat) ∅ [] 0)
                      (mkRuntime [false] [mkTask 0 4 Spawned]))
  = Some ([], 0%nat).
Proof. split; vm_compute; reflexivity. Qed.

(** The tick of the example removes [a] and keeps [b]. *)
Example ex_tick :
  queue (clearExpired (λ _, 105) ex_full) = [ex_b] ∧
  items (clearExpired (λ _, 105) ex_full) = {["b" := 1%nat]}.
Proof. by vm_compute. Qed.


(** At time 200 both entries of the example are expired; [Get(a)] still
    finds [a] and stamps it with 300. *)
Lemma Get_revives_expired_entry_witness :
  wf ex_full ∧ ex_a ∈ queue ex_full ∧ ekey ex_a = "a" ∧
  expiresAt (Value ex_a) ≤ 200 ∧
  ∃ l', LRUCache_Get "a" 200 ex_full = Some ((value (Value ex_a), true), l') ∧
    items l' = items ex_full ∧ items l' !! "a" = Some (eid ex_a) ∧
    ∃ li, head (queue l') = Some (Elem (eid ex_a) li) ∧
      key li = "a" ∧ value li = value (Value ex_a) ∧
      (0 < ttl ex_full → expiresAt li = 200 + ttl ex_full) ∧
      (ttl ex_full ≤ 0 → li = Value ex_a).
Proof.
  assert (H1 : ex_a ∈ queue ex_full).
  { apply elem_of_cons. right. apply elem_of_cons. by left. }
  assert (H2 : expiresAt (Value ex_a) ≤ 200) by (simpl; lia).
  split_and!; [exact ex_full_wf|done..|].
  exact (Get_revives_expired_entry ex_full "a" 200 ex_a ex_full_wf H1 eq_refl H2).
Defined.

(** Three [Set] calls with two distinct keys on a cache of capacity 2. *)
Lemma Sets_within_capacity_evict_nothing_witness :
  New 2 (ttl_options [(100, 4)]) (mkRuntime [] []) = (inl ex_new, ex_rt) ∧
  Z.of_nat (size (list_to_set (C:=gset string)
              ((λ s, s.1.1) <$> [("a", Some 1, 5); ("b", Some 2, 6); ("a", Some 3, 7)])))
    ≤ 2 ∧
  ∃ l, run (set_ops [("a", Some 1, 5); ("b", Some 2, 6); ("a", Some 3, 7)]) ex_new
       = Some l ∧
    (∀ pre s post,
       [("a", Some 1, 5); ("b", Some 2, 6); ("a", Some 3, 7)] = pre ++ s :: post →
       ∃ lp, run (set_ops pre) ex_new = Some lp ∧ Set_evicts s.1.1 lp = false) ∧
    (∀ k, k ∈ (λ s, s.1.1) <$> [("a", Some 1, 5); ("b", Some 2, 6); ("a", Some 3, 7)] →
       ∀ now, ∃ v l',
         last_value [("a", Some 1, 5); ("b", Some 2, 6); ("a", Some 3, 7)] k = Some v ∧
         LRUCache_Get k now l = Some ((v, true), l')).
Proof.
  assert (H1 : Z.of_nat (size (list_to_set (C:=gset string)
              ((λ s, s.1.1) <$> [("a", Some 1, 5); ("b", Some 2, 6); ("a", Some 3, 7)])))
            ≤ 2) by (by vm_compute).
  split_and!; [reflexivity|done|].
  exact (Sets_within_capacity_evict_nothing 2 [(100, 4)] (mkRuntime [] [])
           ex_new ex_rt _ ex_new_constructed H1).
Defined.

(** [Set(a,9)] on the full cache of the example. *)
Lemma Set_returns_whether_key_was_present_witness :
  wf ex_full ∧
  ∃ r l', LRUCache_Set "a" (Some 9) 7 ex_full = Some (r, l') ∧
    (r = true ↔ is_Some (items ex_full !! "a")) ∧
    (∀ e, items ex_full !! "a" = Some e →
       items l' = items ex_full ∧ size (items l') = size (items ex_full) ∧
       length (queue l') = length (queue ex_full) ∧
       head (queue l') = Some (Elem e (Item "a" (Some 9) (stamp 7 ex_full)))) ∧
    (items ex_full !! "a" = None →
       r = false ∧ items l' !! "a" = Some (fresh ex_full) ∧
       head (queue l')
       = Some (Elem (fresh ex_full) (Item "a" (Some 9) (stamp 7 ex_full)))).
Proof.
  split; [exact ex_full_wf|].
  exact (Set_returns_whether_key_was_present ex_full "a" (Some 9) 7 ex_full_wf).
Defined.

(** The world of the example is reached from the construction. *)
Lemma ex_world_reached :
  exec_all [EStart 0; ECall (CSet "a" (Some 1)) 5; ECall (CSet "b" (Some 2)) 6]
           (mkWorld ex_new ex_rt)
  = Some ex_world.
Proof. vm_compute. reflexivity. Qed.

(** C9 (what the code does when the [select] of the sweeper takes a tick
    after [Clear]).  A cache is constructed with [WithTTL(100, 4)], its
    sweeper starts, [a] and [b] are set.  [Clear] cancels the context and
    empties the cache; [Set(c,3)] then inserts an entry without expiration
    ([ttl] is [0]); the sweeper has not yet taken its cancellation branch,
    its [select] takes the tick instead, and the tick removes [c]: the zero
    expiration time is not in the future. *)
Theorem Clear_does_not_stop_a_pending_tick :
  New 2 [WithTTL 100 4] (mkRuntime [] []) = (inl ex_new, ex_rt) ∧
  exec_all [EStart 0; ECall (CSet "a" (Some 1)) 5; ECall (CSet "b" (Some 2)) 6]
           (mkWorld ex_new ex_rt)
  = Some ex_world ∧
  ∃ w1 w2 w3,
    exec (ECall CClear 110) ex_world = Some w1 ∧
    contexts (w_rt w1) = [true] ∧ ttl (w_cache w1) = 0 ∧
    queue (w_cache w1) = [] ∧ items (w_cache w1) = ∅ ∧
    exec (ECall (CSet "c" (Some 3)) 111) w1 = Some w2 ∧
    queue (w_cache w2) = [Elem 2 (Item "c" (Some 3) 0)] ∧
    items (w_cache w2) !! "c" = Some 2%nat ∧
    exec (ETick 0 (λ _, 112)) w2 = Some w3 ∧
    queue (w_cache w3) = [] ∧ items (w_cache w3) !! "c" = None.
Proof.
  split; [reflexivity|]. split; [exact ex_world_reached|].
  eexists _, _, _. split; [reflexivity|]. simpl.
  split_and!; reflexivity.
Qed.

(** With the TTL option given twice two sweepers are started and [Clear]
    cancels the second one only: the first one keeps sweeping for ever. *)
Example Clear_cancels_only_the_last_sweeper :
  ∃ l rt w,
    New (V:=Z) 2 [WithTTL 100 4; WithTTL 100 4] (mkRuntime [] []) = (inl l, rt) ∧
    cancel l = Some 1%nat ∧ length (tasks rt) = 2%nat ∧
    exec_all [EStart 0; EStart 1; ECall CClear 10; EDone 1;
              ECall (CSet "c" (Some 3)) 11; ETick 0 (λ _, 12)] (mkWorld l rt)
    = Some w ∧
    contexts (w_rt w) = [false; true] ∧
    tasks (w_rt w) = [mkTask 0 4 (Ticking 25); mkTask 1 4 Returned] ∧
    queue (w_cache w) = [].
Proof.
  eexists _, _, _. split; [reflexivity|]. simpl.
  split_and!; reflexivity.
Qed.

(** A failed construction can leave a sweeper behind: the first option is
    applied, goroutine included, before the second one is rejected. *)
Example New_failure_after_a_started_sweeper :
  New (V:=Z) 2 [WithTTL 100 4; WithTTL 0 4] (mkRuntime [] [])
  = (inr "ttl duration must be positive", mkRuntime [false] [mkTask 0 4 Spawned]).
Proof. reflexivity. Qed.

(** [Clear] on the world of the example. *)
Example Clear_resets_and_cancels_example :
  crashed (w_rt ex_world) = false ∧ ttl_ok (w_cache ex_world) ∧
  ∃ w1, exec (ECall CClear 110) ex_world = Some w1 ∧
        ∃ w2, exec (EDone 0) w1 = Some w2 ∧
              ∀ clk, exec (ETick 0 clk) w2 = None.
Proof.
  assert (Hok : ttl_ok (w_cache ex_world)) by (by intros ?).
  split_and!; [done..|].
  destruct (Clear_resets_and_cancels ex_world 110 eq_refl Hok)
    as (w1 & Hw1 & _ & _ & _ & _ & _ & _ & _ & Hdone & Hstop).
  exists w1. split; [done|].
  destruct (Hdone 0%nat 0%nat (mkTask 0 4 (Ticking 25)) 25) as (w2 & Hw2 & Ht);
    [reflexivity | simpl; lia | reflexivity..|].
  exists w2. split; [done|]. intros clk.
  assert (Hex : exec_all [EDone 0] w1 = Some w2) by (simpl; by rewrite Hw2).
  exact (Hstop [EDone 0] w2 0%nat _ Hex Ht eq_refl [] w2 eq_refl clk).
Qed.
End Examples.

(** * Further properties of the operations *)

Section MoreFacts.
Context {V : Type}.
Implicit Types (l : LRUCache V) (q : list (Element (listItem V))).
Implicit Types (x : Element (listItem V)) (k : Key) (v : option V).

Lemma call_fields c now l r l' :
  LRUCache_call c now l = Some (r, l') →
  cap l' = cap l ∧ cancel l' = cancel l ∧
  (ttl l' = ttl l ∨ ttl l' = 0%Z) ∧ (c ≠ CClear → ttl l' = ttl l).
Proof.
  destruct c as [k v|k|]; simpl.
  - unfold LRUCache_Set. destruct (items l !! k); [intros [= _ <-]; auto|].
    destruct (if (_ =? _)%Z then _ else _) as [l1|] eqn:Hl1; [|done].
    intros [= _ <-]. simpl.
    assert (cap l1 = cap l ∧ ttl l1 = ttl l ∧ cancel l1 = cancel l) as (-> & -> & ->);
      [|auto].
    destruct (_ =? _)%Z; [|by injection Hl1 as <-].
    destruct (l_Back (queue l)); [by injection Hl1 as <-|done].
  - unfold LRUCache_Get. destruct (items l !! k); [|intros [= _ <-]; auto].
    destruct (l_elem _ _); [intros [= _ <-]; auto|done].
  - intros [= _ <-]. unfold LRUCache_Clear. destruct (cancel l) eqn:Hc; simpl;
      rewrite ?Hc; split_and!; auto; done.
Qed.

Lemma step_fields op l l' :
  step op l = Some l' →
  cap l' = cap l ∧ cancel l' = cancel l ∧
  (ttl l' = ttl l ∨ ttl l' = 0%Z) ∧ (is_Clear op = false → ttl l' = ttl l).
Proof.
  destruct op as [c now|clk]; simpl.
  - destruct (LRUCache_call c now l) as [[r l1]|] eqn:Hc; [|done].
    intros [= <-]. destruct (call_fields _ _ _ _ _ Hc) as (? & ? & ? & Hn).
    split_and!; [done..|]. intros Hcl. apply Hn. by intros ->.
  - intros [= <-]. destruct (clearExpired_fields clk l) as (-> & -> & ->). auto.
Qed.

Lemma run_fields ops : ∀ l l',
  run ops l = Some l' →
  cap l' = cap l ∧ cancel l' = cancel l ∧
  (ttl l' = ttl l ∨ ttl l' = 0%Z) ∧
  (Forall (λ op, is_Clear op = false) ops → ttl l' = ttl l).
Proof.
  induction ops as [|op ops IH]; intros l l'; simpl.
  - intros [= <-]. auto.
  - destruct (step op l) as [l1|] eqn:Hstep; [|done]. intros Hrun.
    destruct (step_fields _ _ _ Hstep) as (Hc1 & Hk1 & Ht1 & Hn1).
    destruct (IH _ _ Hrun) as (Hc & Hk & Ht & Hn).
    rewrite Hc, Hk, Hc1, Hk1. split_and!; [done..| |].
    + destruct Ht as [->| ->]; auto.
    + intros [? ?]%Forall_cons. rewrite Hn, Hn1; done.
Qed.



(** Two nodes of the ordering with the same key are the same node. *)
Lemma same_key_same_node q x y :
  NoDup (ekey <$> q) → x ∈ q → y ∈ q → ekey x = ekey y → x = y.
Proof.
  intros Hnd [i Hi]%list_elem_of_lookup [j Hj]%list_elem_of_lookup Hk.
  assert (i = j) as ->; [|congruence].
  apply (NoDup_lookup _ i j (ekey x) Hnd).
  - by rewrite list_lookup_fmap, Hi.
  - by rewrite list_lookup_fmap, Hj, Hk.
Qed.

(** Lists of distinct keys: moving a key to the front and truncating. *)
Lemma filter_ne_notin (k : string) (ks : list string) :
  k ∉ ks → filter (λ k', k' ≠ k) ks = ks.
Proof.
  induction ks as [|k1 ks IH]; [done|].
  rewrite not_elem_of_cons. intros [Hne Hks].
  rewrite filter_cons_True by done. by rewrite IH.
Qed.

Lemma filter_ne_mid (k : string) (ks1 ks2 : list string) :
  NoDup (ks1 ++ k :: ks2) →
  filter (λ k', k' ≠ k) (ks1 ++ k :: ks2) = ks1 ++ ks2.
Proof.
  intros (_ & Hd & [Hk2 _]%NoDup_cons)%NoDup_app.
  rewrite filter_app, filter_cons_False by (intros Hne; by apply Hne).
  rewrite !filter_ne_notin; [done..|].
  intros Hin. apply (Hd _ Hin). apply elem_of_cons. by left.
Qed.

Lemma recency_NoDup (log : list string) : NoDup (recency log).
Proof.
  induction log as [|k log IH]; simpl; [apply NoDup_nil_2|].
  apply NoDup_cons. split; [|by apply NoDup_filter].
  intros [Hne _]%list_elem_of_filter. by apply Hne.
Qed.

Lemma take_touch_present (k : string) (ks : list string) n :
  NoDup ks → k ∈ take n ks →
  take n (k :: filter (λ k', k' ≠ k) ks)
  = k :: filter (λ k', k' ≠ k) (take n ks).
Proof.
  intros Hnd Hin. destruct n as [|n]; [by apply elem_of_nil in Hin|].
  simpl. f_equal.
  apply elem_of_take in Hin as (i & Hi & Hlt).
  assert (∃ ks1 ks2, ks = ks1 ++ k :: ks2 ∧ length ks1 ≤ n) as (ks1 & ks2 & -> & Hlen).
  { exists (take i ks), (drop (S i) ks). split; [by rewrite take_drop_middle|].
    rewrite length_take. lia. }
  clear i Hi Hlt.
  rewrite filter_ne_mid by done.
  rewrite !take_app, (take_ge ks1) by lia.
  replace (S n - length ks1) with (S (n - length ks1)) by lia. simpl.
  rewrite (take_ge ks1) by lia. rewrite filter_ne_mid; [done|].
  apply NoDup_app in Hnd as (H1 & Hd & [Hk H2]%NoDup_cons).
  apply NoDup_app. split_and!; [done| |].
  - intros y Hy [->|Hy2]%elem_of_cons.
    + apply (Hd _ Hy). apply elem_of_cons. by left.
    + apply (Hd _ Hy). apply elem_of_cons. right.
      by eapply elem_of_sublist; [|apply sublist_take].
  - apply NoDup_cons. split.
    + intros Hy. apply Hk. by eapply elem_of_sublist; [|apply sublist_take].
    + eapply sublist_NoDup; [exact H2 | apply sublist_take].
Qed.

Lemma take_touch_absent (k : string) (ks : list string) n :
  k ∉ take (S n) ks →
  take (S n) (k :: filter (λ k', k' ≠ k) ks) = k :: take n (take (S n) ks).
Proof.
  intros Hnin. simpl. f_equal.
  rewrite <-(take_drop (S n) ks) at 1.
  rewrite filter_app, (filter_ne_notin k (take (S n) ks)) by done.
  destruct (decide (S n ≤ length ks)) as [Hle|Hgt].
  - rewrite take_app_le; [done|]. rewrite length_take. lia.
  - rewrite (drop_ge ks) by lia. by rewrite filter_nil, app_nil_r.
Qed.

(** The keys of the ordering after a [Set] or a [Get]. *)
Lemma step_keys (op : Op V) l l' :
  wf l → is_SetGet op = true → step op l = Some l' →
  ekey <$> queue l'
  = match touched op l with
    | None => ekey <$> queue l
    | Some k =>
        if decide (k ∈ ekey <$> queue l)
        then k :: filter (λ k', k' ≠ k) (ekey <$> queue l)
        else k :: take (Z.to_nat (cap l) - 1) (ekey <$> queue l)
    end.
Proof.
  intros Hwf Hsg Hstep. pose proof (wf_size _ Hwf) as Hsz.
  pose proof Hwf as (Hs & Hcap & Hle).
  assert (Hhit : ∀ k e q1 x q2 (x' : Element (listItem V)),
            items l !! k = Some e → queue l = q1 ++ x :: q2 → ekey x = k →
            ekey x' = k →
            ekey <$> x' :: q1 ++ q2
            = if decide (k ∈ ekey <$> queue l)
              then k :: filter (λ k', k' ≠ k) (ekey <$> queue l)
              else k :: take (Z.to_nat (cap l) - 1) (ekey <$> queue l)).
  { intros k e q1 x q2 x' Hk Hq Hx Hx'. rewrite decide_True.
    - rewrite fmap_cons, Hx'. f_equal. rewrite Hq, !fmap_app, fmap_cons, Hx.
      rewrite filter_ne_mid; [done|].
      rewrite <-Hx, <-fmap_cons, <-fmap_app, <-Hq. apply Hs.
    - rewrite Hq, <-Hx. apply list_elem_of_fmap_2, elem_of_app. right.
      apply elem_of_cons. by left. }
  destruct op as [[k v|k|] now|clk]; try done; simpl in *.
  - destruct (LRUCache_Set k v now l) as [[b l1]|] eqn:Hset; [|done].
    injection Hstep as ->. destruct (items l !! k) as [e|] eqn:Hk.
    + destruct (Set_hit l k v now e Hwf Hk) as (q1 & x & q2 & Hq & He & Hx & Heq).
      rewrite Heq in Hset. injection Hset as <- <-. simpl.
      by apply (Hhit k e q1 x q2).
    + pose proof (wf_store_absent _ _ _ _ Hs Hk) as Hnin.
      rewrite decide_False by done.
      destruct (decide (Z.of_nat (size (items l)) = cap l)) as [Hfull|Hfull].
      * destruct (Set_evict l k v now Hwf Hk Hfull) as (q & victim & Hq & Heq).
        rewrite Heq in Hset. injection Hset as <- <-. simpl. f_equal.
        rewrite Hq, fmap_app. rewrite take_app_length'; [done|].
        rewrite Hsz, Hq, length_app in Hfull. simpl in Hfull.
        rewrite length_fmap. lia.
      * rewrite (Set_miss l k v now Hwf Hk Hfull) in Hset.
        injection Hset as <- <-. simpl. f_equal.
        rewrite take_ge; [done|]. rewrite length_fmap. rewrite Hsz in Hfull. lia.
  - destruct (LRUCache_Get k now l) as [[[v f] l1]|] eqn:Hget; [|done].
    injection Hstep as ->. destruct (items l !! k) as [e|] eqn:Hk.
    + destruct (Get_hit l k now e Hwf Hk) as (q1 & x & q2 & Hq & He & Hx & Heq).
      rewrite Heq in Hget. injection Hget as <- <- <-. simpl.
      apply (Hhit k e q1 x q2); [done..|].
      unfold ekey. simpl. by rewrite refreshed_key.
    + rewrite Get_miss in Hget by done. by injection Hget as <- <- <-.
Qed.

Lemma run_log_keys (ops : list (Op V)) : ∀ log l l' log',
  wf l →
  ekey <$> queue l = take (Z.to_nat (cap l)) (recency log) →
  Forall (λ op, is_SetGet op = true) ops →
  run_log log ops l = Some (l', log') →
  ekey <$> queue l' = take (Z.to_nat (cap l')) (recency log').
Proof.
  induction ops as [|op ops IH]; intros log l l' log' Hwf Hkeys Hsg; simpl.
  - by intros [= <- <-].
  - destruct (step op l) as [l1|] eqn:Hstep; [|done].
    apply Forall_cons in Hsg as [Hsg1 Hsg].
    destruct (step_fields _ _ _ Hstep) as (Hcap & _).
    apply IH; [by eapply wf_step| |done].
    rewrite (step_keys op l l1 Hwf Hsg1 Hstep), Hcap.
    destruct (touched op l) as [k|]; [|done]. simpl. rewrite Hkeys.
    destruct (decide _) as [Hin|Hnin].
    + symmetry. apply take_touch_present; [apply recency_NoDup | done].
    + destruct Hwf as (_ & Hpos & _).
      destruct (Z.to_nat (cap l)) as [|n] eqn:Hn; [lia|].
      rewrite take_touch_absent by done.
      by replace (S n - 1) with n by lia.
Qed.

(** [Get] keeps the index and the value of every key. *)
Lemma Get_holds l k now r l' :
  wf l → LRUCache_Get k now l = Some (r, l') →
  items l' = items l ∧ ∀ k' v', holds l' k' v' ↔ holds l k' v'.
Proof.
  intros Hwf Hget. destruct (items l !! k) as [e|] eqn:Hk.
  - destruct (Get_hit l k now e Hwf Hk) as (q1 & x & q2 & Hq & He & Hx & Heq).
    rewrite Heq in Hget. injection Hget as <- <-. simpl. split; [done|].
    intros k' v'. unfold holds. simpl. rewrite Hq. split.
    + intros (y & [->|Hy]%elem_of_cons & Hyk & Hyv).
      * exists x. unfold ekey in *. simpl in *.
        rewrite refreshed_key in Hyk. rewrite refreshed_value in Hyv.
        split_and!; [|done..]. apply elem_of_app. right. apply elem_of_cons. by left.
      * exists y. split_and!; [|done..].
        apply elem_of_app in Hy as [?|?]; apply elem_of_app; [by left|].
        right. apply elem_of_cons. by right.
    + intros (y & Hy & Hyk & Hyv).
      apply elem_of_app in Hy as [Hy|[->|Hy]%elem_of_cons].
      * exists y. split_and!; [|done..]. apply elem_of_cons. right.
        apply elem_of_app. by left.
      * eexists. split; [apply elem_of_cons; by left|].
        unfold ekey in *. simpl. by rewrite refreshed_key, refreshed_value.
      * exists y. split_and!; [|done..]. apply elem_of_cons. right.
        apply elem_of_app. by right.
  - rewrite Get_miss in Hget by done. by injection Hget as <- <-.
Qed.

(** The ordering after [Set]: the new item at the front, then nodes of the
    old ordering, in the old order, none of them with the key. *)
Lemma Set_shape l k v now r l' :
  wf l → LRUCache_Set k v now l = Some (r, l') →
  ∃ n q, queue l' = Elem n (Item k v (stamp now l)) :: q ∧
         q `sublist_of` queue l ∧ (k ∉ (ekey <$> q)).
Proof.
  intros Hwf Hset. pose proof Hwf as (Hs & _).
  destruct (items l !! k) as [e|] eqn:Hk.
  - destruct (Set_hit l k v now e Hwf Hk) as (q1 & x & q2 & Hq & He & Hx & Heq).
    rewrite Heq in Hset. injection Hset as <- <-. simpl.
    eexists _, _. split_and!; [done| |].
    + rewrite Hq. apply sublist_app; [done|]. by apply sublist_cons.
    + rewrite <-Hx. rewrite Hq in Hs. by apply NoDup_keys_mid, Hs.
  - pose proof (wf_store_absent _ _ _ _ Hs Hk) as Hnin.
    destruct (decide (Z.of_nat (size (items l)) = cap l)) as [Hfull|Hfull].
    + destruct (Set_evict l k v now Hwf Hk Hfull) as (q & victim & Hq & Heq).
      rewrite Heq in Hset. injection Hset as <- <-. simpl.
      eexists _, _. split_and!; [done| |].
      * rewrite Hq. by apply sublist_inserts_r.
      * rewrite Hq, fmap_app in Hnin. intros Hin. apply Hnin, elem_of_app. by left.
    + rewrite (Set_miss l k v now Hwf Hk Hfull) in Hset.
      injection Hset as <- <-. simpl. by eexists _, _.
Qed.

Lemma holds_sublist l l' k v :
  queue l' `sublist_of` queue l → holds l' k v → holds l k v.
Proof.
  intros Hsub (y & Hy & ? & ?). exists y. split_and!; [|done..].
  by eapply elem_of_sublist.
Qed.

(** Every value in the cache is the value last set for its key. *)
Lemma run_last_set (ops : list (Op V)) : ∀ l acc l',
  wf l → (∀ k v, holds l k v → acc k = Some v) →
  run ops l = Some l' →
  ∀ k v, holds l' k v → foldl set_value acc ops k = Some v.
Proof.
  induction ops as [|op ops IH]; intros l acc l' Hwf Hacc; simpl.
  - intros [= <-]. done.
  - destruct (step op l) as [l1|] eqn:Hstep; [|done].
    apply IH; [by eapply wf_step|].
    intros k' v' Hh. destruct op as [[k v|k|] now|clk]; simpl in *.
    + destruct (LRUCache_Set k v now l) as [[b l2]|] eqn:Hset; [|done].
      injection Hstep as ->.
      destruct (Set_shape _ _ _ _ _ _ Hwf Hset) as (n & q & Hq & Hsub & Hnin).
      destruct Hh as (y & Hy & Hyk & Hyv). rewrite Hq in Hy.
      apply elem_of_cons in Hy as [->|Hy].
      * simpl in Hyv. unfold ekey in Hyk. simpl in Hyk. subst.
        by rewrite decide_True.
      * rewrite decide_False.
        -- apply Hacc. exists y. split_and!; [|done..]. by eapply elem_of_sublist.
        -- intros ->. apply Hnin. rewrite <-Hyk. by apply list_elem_of_fmap_2.
    + destruct (LRUCache_Get k now l) as [[[v f] l2]|] eqn:Hget; [|done].
      injection Hstep as ->.
      apply Hacc. by apply (Get_holds _ _ _ _ _ Hwf Hget).
    + injection Hstep as <-. destruct Hh as (y & Hy & _).
      unfold LRUCache_Clear in Hy. destruct (cancel l); by apply elem_of_nil in Hy.
    + injection Hstep as <-. apply Hacc.
      eapply holds_sublist; [|done].
      destruct (clearExpired_spec clk l Hwf) as (kept & removed & -> & _ & -> & _).
      by apply sublist_inserts_r.
Qed.

(** A tick changes nothing when the ordering is empty or its back node is
    not expired. *)
Lemma tick_noop clk l :
  (∀ x, last (queue l) = Some x → (0 < expiresAt (Value x) - clk 0%nat)%Z) →
  clearExpired clk l = l.
Proof.
  intros Hback. unfold clearExpired. destruct (l_Len (queue l) =? 0)%Z; [done|].
  destruct (last (queue l)) as [x|] eqn:Hlast.
  - pose proof Hlast as [q' Hq]%last_Some. rewrite Hq, reverse_snoc. simpl.
    specialize (Hback x eq_refl). by destruct (Z.ltb_spec 0 (expiresAt (Value x) - clk 0%nat)); [|lia].
  - apply last_None in Hlast. by rewrite Hlast.
Qed.




(** ** The option loop of [New] *)

Lemma spawned_cons n cfg cfgs :
  spawned n (cfg :: cfgs) = mkTask n cfg.2 Spawned :: spawned (S n) cfgs.
Proof.
  unfold spawned. rewrite imap_cons. f_equal; [by rewrite Nat.add_0_r|].
  apply imap_ext. intros i x _. simpl. f_equal. lia.
Qed.

Lemma apply_options_spec cfgs : ∀ l rt,
  match apply_options (V:=V) (ttl_options cfgs) l rt with
  | (None, l', rt') =>
      Forall valid_cfg cfgs ∧
      cap l' = cap l ∧ items l' = items l ∧ queue l' = queue l ∧
      fresh l' = fresh l ∧
      ttl l' = default (ttl l) (fst <$> last cfgs) ∧
      cancel l' = match cfgs with
                  | [] => cancel l
                  | _ => Some (length (contexts rt) + length cfgs - 1)
                  end ∧
      contexts rt' = contexts rt ++ replicate (length cfgs) false ∧
      tasks rt' = tasks rt ++ spawned (length (contexts rt)) cfgs
  | (Some err, l', rt') =>
      ∃ good bad rest, cfgs = good ++ bad :: rest ∧
        Forall valid_cfg good ∧ ¬ valid_cfg bad ∧ err = cfg_error bad ∧
        contexts rt' = contexts rt ++ replicate (length good) false ∧
        tasks rt' = tasks rt ++ spawned (length (contexts rt)) good
  end.
Proof.
  induction cfgs as [|[t n] cfgs IH]; intros l rt.
  - simpl. by rewrite !app_nil_r.
  - simpl. unfold WithTTL at 1. simpl.
    destruct (Z.leb_spec t 0) as [Ht|Ht].
    { exists [], (t, n), cfgs. unfold valid_cfg, cfg_error. simpl.
      destruct (Z.leb_spec t 0); [|lia].
      rewrite !app_nil_r. split_and!; [done|done|lia|done..]. }
    destruct (Z.leb_spec n 1) as [Hn|Hn].
    { exists [], (t, n), cfgs. unfold valid_cfg, cfg_error. simpl.
      destruct (Z.leb_spec t 0); [lia|].
      rewrite !app_nil_r. split_and!; [done|done|lia|done..]. }
    specialize (IH (Cache (cap l) t (Some (length (contexts rt)))
                          (items l) (queue l) (fresh l))
                   (mkRuntime (contexts rt ++ [false])
                      (tasks rt ++ [mkTask (length (contexts rt)) n Spawned]))).
    destruct (apply_options _ _ _) as [[[err|] l'] rt']; simpl in IH.
    + destruct IH as (good & bad & rest & -> & Hgood & Hbad & -> & Hc & Ht').
      exists ((t, n) :: good), bad, rest. split_and!; try done.
      * apply Forall_cons. split; [|done]. unfold valid_cfg. simpl. lia.
      * rewrite Hc, <-app_assoc. done.
      * rewrite Ht', <-app_assoc, spawned_cons, length_app. simpl.
        by rewrite Nat.add_1_r.
    + destruct IH as (Hv & Hcap & Hi & Hq & Hf & Httl & Hcan & Hc & Ht').
      split_and!; try done.
      * apply Forall_cons. split; [|done]. unfold valid_cfg. simpl. lia.
      * rewrite Httl, last_cons. by destruct (last cfgs).
      * rewrite Hcan. destruct cfgs as [|cfg cfgs]; simpl; f_equal.
        -- lia.
        -- rewrite length_app. simpl. lia.
      * rewrite Hc, <-app_assoc. done.
      * rewrite Ht', <-app_assoc, spawned_cons, length_app. simpl.
        by rewrite Nat.add_1_r.
Qed.

(** ** The system as a whole *)


Lemma set_task_crashed i (t : Task) rt :
  tasks rt !! i = Some t → crashed (set_task i t Panicked rt) = true.
Proof.
  intros Hi. unfold crashed. apply existsb_exists.
  exists (mkTask (t_ctx t) (t_ticks t) Panicked). split; [|done].
  apply list_elem_of_In, (list_elem_of_lookup_2 _ i). simpl.
  apply list_lookup_insert_eq. by eapply lookup_lt_Some.
Qed.

Lemma crashed_stuck (e : Event V) w : crashed (w_rt w) = true → exec e w = None.
Proof. intros Hcr. unfold exec. by rewrite Hcr. Qed.


(** ** The cache of [src/lruCache.go] through the correspondence *)

Lemma run_calls_erase_wf (calls : list (Call V * Time)) : ∀ l,
  wf l → ttl l = 0%Z →
  ∃ rs l', run_calls calls l = Some (rs, l') ∧
           NoTTL.run_calls calls.*1 (erase_cache l) = Some (rs, erase_cache l') ∧
           wf l' ∧ ttl l' = 0%Z ∧ cap l' = cap l ∧ length rs = length calls.
Proof.
  induction calls as [|[c now] calls IH]; intros l Hwf Httl.
  - by exists [], l.
  - rewrite fmap_cons. simpl.
    rewrite (erase_cache_call c now l Hwf Httl).
    destruct (call_total c now l Hwf) as [[r l1] Hcall]. rewrite Hcall. simpl.
    destruct (call_fields _ _ _ _ _ Hcall) as (Hcap & _).
    destruct (IH l1) as (rs & l' & -> & -> & Hwf' & Httl' & Hcap' & Hlen).
    { by eapply wf_call. } { by eapply call_ttl_off. }
    exists (r :: rs), l'. split_and!; simpl; [done..|congruence|by f_equal].
Qed.

Lemma NoTTL_reachable c (cs : list (Call V)) s0 :
  NoTTL.New c = inl s0 →
  ∃ rs l, NoTTL.run_calls cs s0 = Some (rs, erase_cache l) ∧
          wf l ∧ ttl l = 0%Z ∧ cap l = c ∧ length rs = length cs.
Proof.
  unfold NoTTL.New. destruct (Z.leb_spec c 0); [done|]. intros [= <-].
  destruct (run_calls_erase_wf ((λ c, (c, 0%Z)) <$> cs) (Cache c 0%Z None ∅ l_Init 0))
    as (rs & l & _ & Hrun & Hwf & Httl & Hcap & Hlen).
  { split_and!; [apply wf_store_empty | done | simpl; lia]. } { done. }
  exists rs, l. rewrite length_fmap in Hlen. split_and!; [|done..].
  rewrite <-Hrun. f_equal. rewrite <-list_fmap_compose. symmetry. apply list_fmap_id.
Qed.

(** What [Set] returns and leaves, in one statement for its three branches. *)
Lemma Set_outcome l k v now :
  wf l →
  ∃ r l1 n q', LRUCache_Set k v now l = Some (r, l1) ∧
    (r = true ↔ is_Some (items l !! k)) ∧
    queue l1 = Elem n (Item k v (stamp now l)) :: q' ∧
    items l1 !! k = Some n ∧ ttl l1 = ttl l ∧
    (items l !! k = None → Z.of_nat (size (items l)) = cap l →
       ∃ victim, queue l = q' ++ [victim] ∧ n = fresh l ∧
                 is_Some (items l !! ekey victim) ∧
                 items l1 !! ekey victim = None).
Proof.
  intros Hwf. pose proof Hwf as (Hs & _).
  destruct (items l !! k) as [e|] eqn:Hk.
  - destruct (Set_hit l k v now e Hwf Hk) as (q1 & x & q2 & Hq & He & Hx & Heq).
    eexists _, _, _, _. split; [exact Heq|]. simpl.
    split_and!; [by split; eauto|done..].
  - destruct (decide (Z.of_nat (size (items l)) = cap l)) as [Hfull|Hfull].
    + destruct (Set_evict l k v now Hwf Hk Hfull) as (q & victim & Hq & Heq).
      eexists _, _, _, _. split; [exact Heq|]. simpl.
      split_and!; [by split; [|intros []]|done|by rewrite lookup_insert_eq|done|].
      intros _ _. exists victim.
      assert (Hv : items l !! ekey victim = Some (eid victim)).
      { destruct Hs as [-> Hkeys _ _]. apply index_of_Some; [done|].
        exists victim. split; [|done]. rewrite Hq. apply elem_of_app. right.
        by apply list_elem_of_singleton. }
      split_and!; [done|done|by eexists|].
      rewrite lookup_insert_ne by congruence. apply lookup_delete_eq.
    + rewrite (Set_miss l k v now Hwf Hk Hfull).
      eexists _, _, _, _. split; [done|]. simpl.
      split_and!; [by split; [|intros []]|done|by rewrite lookup_insert_eq|done|done].
Qed.

Lemma erase_node_key (x : Element (listItem V)) :
  NoTTL.key (Value (erase_node x)) = ekey x.
Proof. done. Qed.

Lemma erase_queue_keys (q : list (Element (listItem V))) :
  (λ y, NoTTL.key (Value y)) <$> (erase_node <$> q) = ekey <$> q.
Proof. rewrite <-list_fmap_compose. by apply list_fmap_ext. Qed.

Lemma erase_queue_ids (q : list (Element (listItem V))) :
  eid <$> (erase_node <$> q) = eid <$> q.
Proof. rewrite <-list_fmap_compose. by apply list_fmap_ext. Qed.
End MoreFacts.

Section FurtherProperties.
Context {V : Type}.
Implicit Types (l : LRUCache V) (q : list (Element (listItem V))).
Implicit Types (x : Element (listItem V)) (k : Key) (v : option V).

(** X1.  In every state a constructed cache reaches by calls and sweeper
    ticks, the index and the ordering describe the same entries: they have
    the same size, at most the capacity; no key and no node occurs twice in
    the ordering; and a key is indexed under a node exactly when that node
    is in the ordering and carries that key. *)
Theorem reachable_index_agrees_with_ordering c cfgs rt l0 rt' ops l :
  New c (ttl_options cfgs) rt = (inl l0, rt') → run ops l0 = Some l →
  size (items l) = length (queue l) ∧ (Z.of_nat (length (queue l)) ≤ c)%Z ∧
  NoDup (ekey <$> queue l) ∧ NoDup (eid <$> queue l) ∧
  ∀ k e, items l !! k = Some e ↔ ∃ x, x ∈ queue l ∧ ekey x = k ∧ eid x = e.
Proof.
  intros (_ & Hc & _ & _ & Hwf0 & _)%New_ok Hrun.
  pose proof (wf_run _ _ _ Hwf0 Hrun) as Hwf.
  destruct (run_fields _ _ _ Hrun) as (Hcap & _).
  pose proof (wf_size _ Hwf) as Hsz. destruct Hwf as ([Hi Hk Hids _] & _ & Hle).
  split_and!; [done|congruence|done|done|].
  intros k e. rewrite Hi. by apply index_of_Some.
Qed.


(** X3.  The capacity and the cancel function of a cache never change after
    construction ([Clear] does not reset [cancel]); [ttl] changes only in
    [Clear], and only to [0]. *)
Theorem capacity_and_cancel_never_change c cfgs rt l0 rt' ops l :
  New c (ttl_options cfgs) rt = (inl l0, rt') → run ops l0 = Some l →
  cap l = c ∧ cancel l = cancel l0 ∧
  (ttl l = ttl l0 ∨ ttl l = 0%Z) ∧
  (Forall (λ op, is_Clear op = false) ops → ttl l = ttl l0).
Proof.
  intros (_ & Hc & _)%New_ok Hrun.
  destruct (run_fields _ _ _ Hrun) as (Hcap & ? & ? & ?).
  split_and!; [congruence | done..].
Qed.

(** X4.  After [Set(k, v)] the entry of [k] is at the front with the value
    [v], the number of entries is unchanged if [k] was indexed and otherwise
    one more, capped at the capacity, and a [Get(k)] that follows returns
    [(v, true)], whatever the clock shows. *)
Theorem Set_then_Get_returns_the_value l k v now now' :
  wf l →
  ∃ r l1 x l2,
    LRUCache_Set k v now l = Some (r, l1) ∧
    head (queue l1) = Some x ∧ Value x = Item k v (stamp now l) ∧
    items l1 !! k = Some (eid x) ∧
    Z.of_nat (size (items l1))
    = match items l !! k with
      | Some _ => Z.of_nat (size (items l))
      | None => Z.min (Z.of_nat (size (items l)) + 1) (cap l)
      end ∧
    LRUCache_Get k now' l1 = Some ((v, true), l2).
Proof.
  intros Hwf. pose proof (wf_size _ Hwf) as Hsz. pose proof Hwf as (Hs & Hcap & Hle).
  assert (Hgoal : ∃ r l1 x, LRUCache_Set k v now l = Some (r, l1) ∧
            head (queue l1) = Some x ∧ Value x = Item k v (stamp now l) ∧
            items l1 !! k = Some (eid x) ∧
            Z.of_nat (length (queue l1))
            = match items l !! k with
              | Some _ => Z.of_nat (size (items l))
              | None => Z.min (Z.of_nat (size (items l)) + 1) (cap l)
              end).
  { destruct (items l !! k) as [e|] eqn:Hk.
    - destruct (Set_hit l k v now e Hwf Hk) as (q1 & x & q2 & Hq & He & Hx & Heq).
      eexists _, _, _. split; [exact Heq|]. simpl. split_and!; [done..|].
      rewrite Hsz, Hq, !length_app. simpl. lia.
    - destruct (decide (Z.of_nat (size (items l)) = cap l)) as [Hfull|Hfull].
      + destruct (Set_evict l k v now Hwf Hk Hfull) as (q & victim & Hq & Heq).
        eexists _, _, _. split; [exact Heq|]. simpl.
        split_and!; [done|done|by rewrite lookup_insert_eq|].
        rewrite Hsz, Hq, length_app in Hfull. simpl in Hfull.
        rewrite Hsz, Hq, length_app. simpl. lia.
      + rewrite (Set_miss l k v now Hwf Hk Hfull).
        eexists _, _, _. split; [done|]. simpl.
        split_and!; [done|done|by rewrite lookup_insert_eq|].
        rewrite Hsz in *. lia. }
  destruct Hgoal as (r & l1 & x & Hset & Hhead & Hval & Hidx & Hlen).
  pose proof (wf_Set _ _ _ _ _ _ Hwf Hset) as Hwf1.
  assert (Hx : x ∈ queue l1).
  { destruct (queue l1) as [|y q]; [done|]. injection Hhead as ->.
    apply elem_of_cons. by left. }
  destruct (Get_found l1 k now' x Hwf1 Hx) as [l2 Hget].
  { unfold ekey. by rewrite Hval. }
  rewrite Hval in Hget. simpl in Hget.
  exists r, l1, x, l2. split_and!; [done..| |done].
  by rewrite (wf_size _ Hwf1).
Qed.

(** X5.  [Get] changes no binding: the index is the same afterwards and
    every key has the value it had.  On a key that is not indexed it returns
    [(nil, false)] and leaves the cache as it is; on an indexed key it
    returns the value of its node and moves that node to the front, the
    other nodes keeping their order. *)
Theorem Get_changes_no_binding l k now :
  wf l →
  ∃ r l', LRUCache_Get k now l = Some (r, l') ∧
    items l' = items l ∧
    (∀ k' v', holds l' k' v' ↔ holds l k' v') ∧
    match items l !! k with
    | None => r = (None, false) ∧ l' = l
    | Some e =>
        ∃ q1 x q2, queue l = q1 ++ x :: q2 ∧ eid x = e ∧ ekey x = k ∧
          r = (value (Value x), true) ∧
          queue l' = Elem e (refreshed now l (Value x)) :: q1 ++ q2
    end.
Proof.
  intros Hwf. destruct (Get_total l k now Hwf) as [[r l'] Hget].
  exists r, l'. split; [done|].
  destruct (Get_holds l k now r l' Hwf Hget) as [Hi Hh]. split_and!; [done..|].
  destruct (items l !! k) as [e|] eqn:Hk.
  - destruct (Get_hit l k now e Hwf Hk) as (q1 & x & q2 & Hq & He & Hx & Heq).
    rewrite Heq in Hget. injection Hget as <- <-. eauto 10.
  - rewrite Get_miss in Hget by done. by injection Hget as <- <-.
Qed.

(** X6.  The least-recently-used policy as a whole.  After any sequence of
    [Set] and [Get] calls on a freshly constructed cache of capacity [c], the
    keys of the ordering, front first, are the [c] most recently touched
    distinct keys, the most recent first ([Set] touches its key, [Get]
    touches it when it finds it). *)
Theorem cache_holds_the_most_recently_touched_keys
    c cfgs rt l0 rt' (ops : list (Op V)) l log :
  New c (ttl_options cfgs) rt = (inl l0, rt') →
  Forall (λ op, is_SetGet op = true) ops →
  run_log [] ops l0 = Some (l, log) →
  ekey <$> queue l = take (Z.to_nat c) (recency log).
Proof.
  intros (_ & Hc & _ & Hq0 & Hwf0 & _)%New_ok Hsg Hrun.
  assert (Hcap : cap l = c).
  { assert (Hr : run ops l0 = Some l).
    { clear -Hrun. revert Hrun. generalize (@nil string) as lg. revert l0.
      induction ops as [|op ops IH]; intros l0 lg; simpl; [by intros [= <- _]|].
      destruct (step op l0); [apply IH | done]. }
    destruct (run_fields _ _ _ Hr) as (? & _). congruence. }
  rewrite <-Hcap. apply (run_log_keys ops [] l0 l log); [done| |done..].
  rewrite Hq0. simpl. by rewrite take_nil.
Qed.

(** X7.  The cache never holds or returns a stale value: in every state a
    constructed cache reaches by calls and sweeper ticks, the value of each
    key it holds, and so the value a successful [Get] returns, is the value
    of the last [Set] on that key. *)
Theorem cache_values_are_the_last_set c cfgs rt l0 rt' (ops : list (Op V)) l :
  New c (ttl_options cfgs) rt = (inl l0, rt') → run ops l0 = Some l →
  (∀ k v, holds l k v → last_set ops k = Some v) ∧
  (∀ k now v l', LRUCache_Get k now l = Some ((v, true), l') →
                 last_set ops k = Some v).
Proof.
  intros (_ & _ & _ & Hq0 & Hwf0 & _)%New_ok Hrun.
  assert (Hall : ∀ k v, holds l k v → last_set ops k = Some v).
  { apply (run_last_set ops l0 (λ _, None) l Hwf0); [|done].
    intros k v (y & Hy & _). rewrite Hq0 in Hy. by apply elem_of_nil in Hy. }
  split; [done|]. intros k now v l' Hget. apply Hall.
  pose proof (wf_run _ _ _ Hwf0 Hrun) as Hwf.
  destruct (items l !! k) as [e|] eqn:Hk.
  - destruct (Get_hit l k now e Hwf Hk) as (q1 & x & q2 & Hq & He & Hx & Heq).
    rewrite Heq in Hget. injection Hget as <- _.
    exists x. split_and!; [|done..]. rewrite Hq. apply elem_of_app. right.
    apply elem_of_cons. by left.
  - by rewrite Get_miss in Hget.
Qed.

(** X8.  The two ends of a sweeper tick.  If no node is in the future at any
    reading of the clock, the tick empties the index and the ordering (this
    is what happens to entries that were never stamped).  If the back node
    is in the future at the first reading, or there is no node, the tick
    changes nothing, whatever the other nodes hold. *)
Theorem tick_removes_all_or_nothing clk l :
  wf l →
  ((∀ x j, x ∈ queue l → (expiresAt (Value x) ≤ clk j)%Z) →
     queue (clearExpired clk l) = [] ∧ items (clearExpired clk l) = ∅) ∧
  ((∀ x, last (queue l) = Some x → (clk 0%nat < expiresAt (Value x))%Z) →
     clearExpired clk l = l).
Proof.
  intros Hwf. split.
  - intros Hexp.
    destruct (clearExpired_spec clk l Hwf)
      as (kept & removed & Hq & Hwf' & Hq' & _ & _ & Hk).
    assert (kept = []) as ->.
    { destruct (last kept) as [x|] eqn:Hlast; [|by apply last_None].
      specialize (Hk x eq_refl).
      assert (Hin : x ∈ queue l).
      { apply last_Some in Hlast as [k' ->]. rewrite Hq.
        apply elem_of_app. left. apply elem_of_app. right.
        by apply list_elem_of_singleton. }
      specialize (Hexp x (length removed) Hin). lia. }
    split; [done|]. destruct Hwf' as ([Hi _ _ _] & _). by rewrite Hi, Hq'.
  - intros Hback. apply tick_noop. intros x Hx. specialize (Hback x Hx). lia.
Qed.

(** X9.  A second tick at the same clock reading removes nothing more. *)
Theorem tick_twice_at_the_same_time_is_one_tick t l :
  wf l →
  clearExpired (λ _, t) (clearExpired (λ _, t) l) = clearExpired (λ _, t) l.
Proof.
  intros Hwf.
  destruct (clearExpired_spec (λ _, t) l Hwf)
    as (kept & removed & Hq & _ & Hq' & _ & _ & Hk).
  apply tick_noop. rewrite Hq'. apply Hk.
Qed.

(** X10.  An entry that was just touched is safe from the sweeper until its
    new expiration: after a [Set], or a [Get] that found its key, at time
    [now] with TTL on, a tick whose clock readings are all before
    [now + ttl] keeps the entry in the index and in the ordering. *)
Theorem touched_entry_survives_the_sweeper c now l l1 k clk :
  wf l → (0 < ttl l)%Z →
  touched (OCall c now) l = Some k → step (OCall c now) l = Some l1 →
  (∀ j, (clk j < now + ttl l)%Z) →
  is_Some (items l1 !! k) ∧
  items (clearExpired clk l1) !! k = items l1 !! k ∧
  ∃ x, x ∈ queue (clearExpired clk l1) ∧ ekey x = k ∧
       expiresAt (Value x) = (now + ttl l)%Z.
Proof.
  intros Hwf Httl Htouch Hstep Hclk.
  pose proof (wf_step _ _ _ Hwf Hstep) as Hwf1.
  destruct (step_shape _ _ _ Hwf Hstep) as (_ & _ & Hshape).
  rewrite Htouch in Hshape.
  destruct Hshape as (x & q & Hq1 & _ & Hx & _ & Hexp).
  specialize (Hexp c now eq_refl Httl).
  assert (Hxin : x ∈ queue l1) by (rewrite Hq1; apply elem_of_cons; by left).
  assert (Hidx : items l1 !! k = Some (eid x)).
  { destruct Hwf1 as ([-> Hk _ _] & _). apply index_of_Some; eauto. }
  destruct (clearExpired_spec clk l1 Hwf1)
    as (kept & removed & Hq & _ & Hq' & Hm & Hr & _).
  assert (Hnr : x ∉ removed).
  { intros [j Hj]%elem_of_reverse%list_elem_of_lookup.
    specialize (Hr j x Hj). specialize (Hclk j). lia. }
  assert (Hkept : x ∈ kept).
  { rewrite Hq in Hxin. by apply elem_of_app in Hxin as [?|?]. }
  split; [by eexists|]. split.
  - rewrite Hm, decide_False; [done|].
    intros (y & Hy & Hyin)%list_elem_of_fmap. apply Hnr.
    assert (y = x) as <-; [|done].
    destruct Hwf1 as ([_ Hk _ _] & _).
    apply (same_key_same_node (queue l1)); [done| |done|congruence].
    rewrite Hq. apply elem_of_app. by right.
  - exists x. by rewrite Hq'.
Qed.


(** X12.  [New] with any list of [WithTTL] options.  It succeeds exactly when
    the capacity is positive and every option has a positive ttl and more
    than one tick.  On success the cache is empty, its ttl is that of the
    last option (zero without options), a goroutine has been started for
    every option, each with a context of its own, and the cancel function
    kept is that of the last option only.  On failure the error is the
    capacity error, or the error of the first invalid option; the goroutines
    of the valid options before it have been started all the same. *)
Theorem New_validates_and_starts_a_sweeper_per_option c cfgs rt :
  match New (V:=V) c (ttl_options cfgs) rt with
  | (inl l, rt') =>
      l = Cache c (default 0%Z (fst <$> last cfgs))
            (match cfgs with
             | [] => None
             | _ => Some (length (contexts rt) + length cfgs - 1)
             end) ∅ [] 0 ∧
      contexts rt' = contexts rt ++ replicate (length cfgs) false ∧
      tasks rt' = tasks rt ++ spawned (length (contexts rt)) cfgs
  | (inr err, rt') =>
      if (c <=? 0)%Z then err = "cap must be positive" ∧ rt' = rt
      else ∃ good bad rest, cfgs = good ++ bad :: rest ∧
             Forall valid_cfg good ∧ ¬ valid_cfg bad ∧
             err = cfg_error bad ∧ error_kind err = Some InvalidTTLConfig ∧
             contexts rt' = contexts rt ++ replicate (length good) false ∧
             tasks rt' = tasks rt ++ spawned (length (contexts rt)) good
  end ∧
  ((∃ l rt', New (V:=V) c (ttl_options cfgs) rt = (inl l, rt'))
   ↔ (0 < c)%Z ∧ Forall valid_cfg cfgs).
Proof.
  unfold New. destruct (Z.leb_spec c 0) as [Hc|Hc].
  { split; [done|]. split; [by intros (? & ? & [=]) | lia]. }
  pose proof (apply_options_spec (V:=V) cfgs (Cache c 0%Z None ∅ l_Init 0) rt)
    as Hspec.
  destruct (apply_options _ _ _) as [[[err|] l] rt']; simpl in Hspec.
  - destruct Hspec as (good & bad & rest & -> & Hgood & Hbad & -> & Hctx & Ht).
    split.
    + exists good, bad, rest. split_and!; try done.
      unfold cfg_error. by destruct (bad.1 <=? 0)%Z.
    + split; [by intros (? & ? & [=])|]. intros [_ Hall].
      apply Forall_app in Hall as [_ Hall]. by apply Forall_cons in Hall as [? _].
  - destruct Hspec as (Hv & Hcap & Hi & Hq & Hf & Httl & Hcan & Hctx & Ht).
    split; [|split; [done | by eexists _, _]].
    split_and!; [|done..]. destruct l; simpl in *. subst.
    f_equal; by destruct cfgs.
Qed.

(** X13.  The period of the sweeper's ticker is [l.ttl / ticks], computed
    from [l.ttl] as it is when the goroutine runs, not when [WithTTL] was
    called.  If [ticks] is at most [l.ttl] at that moment, the period is
    positive and the sweeper enters its loop.  Otherwise the period is not positive,
    [time.NewTicker] panics and nothing runs any more.  This is what happens
    when [Clear], which sets [l.ttl] to zero, runs before the goroutine has
    started. *)
Theorem sweeper_period_is_read_when_the_goroutine_starts (w : World V) i t :
  crashed (w_rt w) = false → tasks (w_rt w) !! i = Some t →
  t_state t = Spawned → (1 < t_ticks t)%Z →
  ((t_ticks t ≤ ttl (w_cache w))%Z →
     exec (EStart i) w
     = Some (mkWorld (w_cache w)
               (set_task i t (Ticking (ttl (w_cache w) `quot` t_ticks t)%Z) (w_rt w))) ∧
     (0 < ttl (w_cache w) `quot` t_ticks t)%Z ∧
     (t_ticks t * (ttl (w_cache w) `quot` t_ticks t) ≤ ttl (w_cache w))%Z) ∧
  ((ttl (w_cache w) < t_ticks t)%Z →
     ∃ w', exec (EStart i) w = Some w' ∧ w_cache w' = w_cache w ∧
           tasks (w_rt w') !! i = Some (mkTask (t_ctx t) (t_ticks t) Panicked) ∧
           ∀ e, exec e w' = None) ∧
  (∀ now ctx, cancel (w_cache w) = Some ctx →
     ∃ w1 w2, exec (ECall CClear now) w = Some w1 ∧
              exec (EStart i) w1 = Some w2 ∧
              tasks (w_rt w2) !! i = Some (mkTask (t_ctx t) (t_ticks t) Panicked)).
Proof.
  intros Hcr Hi Hst Hticks. destruct w as [l rt]. simpl in *.
  assert (Hlt : i < length (tasks rt)) by (by eapply lookup_lt_Some).
  split_and!.
  - intros Hle.
    assert (Hpos : (0 < ttl l `quot` t_ticks t)%Z) by (apply Z.quot_str_pos; lia).
    split_and!; [|done|apply Z.mul_quot_le; lia].
    unfold exec. simpl. rewrite Hcr, Hi, Hst. unfold NewTicker.
    by destruct (Z.leb_spec (ttl l `quot` t_ticks t) 0); [lia|].
  - intros Hsmall.
    assert (Hq : (ttl l `quot` t_ticks t ≤ 0)%Z).
    { rewrite <-(Z.quot_small (t_ticks t - 1) (t_ticks t)) by lia.
      apply Z.quot_le_mono; lia. }
    eexists. split.
    { unfold exec. simpl. rewrite Hcr, Hi, Hst. unfold NewTicker.
      destruct (Z.leb_spec (ttl l `quot` t_ticks t) 0); [reflexivity|lia]. }
    simpl. split_and!; [done|by apply list_lookup_insert_eq|].
    intros e. apply crashed_stuck. simpl. by apply set_task_crashed.
  - intros now ctx Hc. unfold exec at 1. simpl. rewrite Hcr.
    unfold LRUCache_Clear. rewrite Hc. simpl.
    eexists _, _. split; [reflexivity|].
    unfold exec. simpl.
    change (crashed (mkRuntime (<[ctx:=true]> (contexts rt)) (tasks rt)))
      with (crashed rt).
    rewrite Hcr, Hi, Hst. simpl. split; [reflexivity|]. simpl.
    by apply list_lookup_insert_eq.
Qed.


(** X15.  The cache of [src/lruCache.go].  No sequence of [Set], [Get] and
    [Clear] calls on a constructed cache panics: every call returns.  After
    it the capacity is the one given to [New], the index and the ordering
    have the same size, at most the capacity, no key and no node occurs
    twice in the ordering, and a key is indexed under a node exactly when
    that node is in the ordering and carries that key. *)
Theorem NoTTL_cache_never_panics_and_stays_consistent c (cs : list (Call V)) s0 :
  NoTTL.New c = inl s0 →
  ∃ rs s, NoTTL.run_calls cs s0 = Some (rs, s) ∧ length rs = length cs ∧
    NoTTL.cap s = c ∧ size (NoTTL.items s) = length (NoTTL.queue s) ∧
    (Z.of_nat (length (NoTTL.queue s)) ≤ c)%Z ∧
    NoDup ((λ y, NoTTL.key (Value y)) <$> NoTTL.queue s) ∧
    NoDup (eid <$> NoTTL.queue s) ∧
    ∀ k e, NoTTL.items s !! k = Some e
           ↔ ∃ y, y ∈ NoTTL.queue s ∧ NoTTL.key (Value y) = k ∧ eid y = e.
Proof.
  intros Hnew.
  destruct (NoTTL_reachable c cs s0 Hnew) as (rs & l & Hrun & Hwf & _ & Hcap & Hlen).
  exists rs, (erase_cache l). split; [done|]. simpl.
  pose proof (wf_size _ Hwf) as Hsz. destruct Hwf as ([Hi Hk Hids _] & _ & Hle).
  rewrite length_fmap, erase_queue_keys, erase_queue_ids.
  split_and!; [done|done|done|lia|done|done|].
  intros k e. rewrite Hi, index_of_Some by done. split.
  - intros (x & Hx & Hxk & Hxe). exists (erase_node x).
    split; [by apply list_elem_of_fmap_2|done].
  - intros (y & (x & -> & Hx)%list_elem_of_fmap & Hyk & Hye). by exists x.
Qed.

(** X16.  [Set] and [Get] of [src/lruCache.go] in any state a constructed
    cache reaches.  [Set(k, v)] returns [true] exactly when [k] was indexed,
    and puts the node of [k], with the value [v], at the front; a [Get(k)]
    that follows returns [(v, true)].  When [k] was not indexed and the
    cache was full, the node at the back is the one removed, and a [Get] of
    its key, which was indexed before, now returns [(nil, false)]. *)
Theorem NoTTL_Set_then_Get_returns_the_value c (cs : list (Call V)) s0 rs s k v :
  NoTTL.New c = inl s0 → NoTTL.run_calls cs s0 = Some (rs, s) →
  ∃ r s1 s2 n rest,
    NoTTL.LRUCache_Set k v s = Some (r, s1) ∧
    (r = true ↔ is_Some (NoTTL.items s !! k)) ∧
    NoTTL.queue s1 = Elem n (NoTTL.Item k v) :: rest ∧
    NoTTL.items s1 !! k = Some n ∧
    NoTTL.LRUCache_Get k s1 = Some ((v, true), s2) ∧
    (NoTTL.items s !! k = None → Z.of_nat (size (NoTTL.items s)) = c →
       ∃ victim, NoTTL.queue s = rest ++ [victim] ∧
         is_Some (NoTTL.items s !! NoTTL.key (Value victim)) ∧
         NoTTL.LRUCache_Get (NoTTL.key (Value victim)) s1
         = Some ((None, false), s1)).
Proof.
  intros Hnew Hrun.
  destruct (NoTTL_reachable c cs s0 Hnew) as (rs' & l & Hrun' & Hwf & Httl & Hcap & _).
  rewrite Hrun in Hrun'. injection Hrun' as _ ->.
  destruct (Set_outcome l k v 0%Z Hwf)
    as (r & l1 & n & q' & Hset & Hr & Hq1 & Hidx & Httl1 & Hev).
  pose proof (wf_Set _ _ _ _ _ _ Hwf Hset) as Hwf1.
  rewrite Httl in Httl1.
  destruct (Get_found l1 k 0%Z (Elem n (Item k v (stamp 0%Z l))) Hwf1)
    as [l2 Hget]; [rewrite Hq1; apply elem_of_cons; by left | done |].
  exists r, (erase_cache l1), (erase_cache l2), n, (erase_node <$> q').
  split_and!.
  - by rewrite (erase_cache_Set l k v 0%Z Hwf Httl), Hset.
  - done.
  - simpl. by rewrite Hq1.
  - done.
  - by rewrite (erase_cache_Get l1 k 0%Z Hwf1 Httl1), Hget.
  - simpl. intros Hk Hfull. rewrite Hcap in Hev.
    destruct (Hev Hk Hfull) as (victim & Hq & _ & Hin & Hout).
    exists (erase_node victim). rewrite erase_node_key. split_and!.
    + by rewrite Hq, fmap_app.
    + done.
    + unfold NoTTL.LRUCache_Get. simpl. by rewrite Hout.
Qed.

(** X17.  Locking in [Set], [Get] and [clearExpired].  [Get] and a tick of
    the sweeper take the mutex once and hold it from their first access to
    the shared state to their last.  [Set] takes it once as well, and holds
    it for everything it does to the index and the ordering; the only
    accesses it makes before locking are its reads of [l.ttl]. *)
Theorem Set_Get_and_tick_lock_once l k clk :
  (∃ pre locked, Set_accesses k l = pre ++ locked ∧
     Forall (λ a, a = A_Read F_ttl) pre ∧ pre ≠ [] ∧
     guarded false locked = true) ∧
  locks_once (Set_accesses k l) = true ∧
  guarded false (Get_accesses k l) = true ∧
  locks_once (Get_accesses k l) = true ∧
  guarded false (clearExpired_accesses clk l) = true ∧
  locks_once (clearExpired_accesses clk l) = true.
Proof.
  assert (Hloop : ∀ (nodes : list (Element (listItem V))) i tl,
    guarded true (clearExpired_loop_accesses clk i nodes ++ tl) = guarded true tl ∧
    filter (λ a, a = A_Lock) (clearExpired_loop_accesses clk i nodes ++ tl)
    = filter (λ a, a = A_Lock) tl).
  { induction nodes as [|node prevs IH]; intros i tl; [done|]. simpl.
    destruct (0 <? _)%Z; [done|]. simpl. apply IH. }
  unfold Set_accesses, Get_accesses, clearExpired_accesses, locks_once.
  split_and!.
  - exists ([A_Read F_ttl] ++ (if (0 <? ttl l)%Z then [A_Read F_ttl] else [])).
    eexists. split; [by rewrite <-app_assoc|].
    split_and!; [by destruct (0 <? ttl l)%Z; repeat constructor|done|].
    destruct (items l !! k); [done|].
    by destruct (Z.of_nat (size (items l)) =? cap l)%Z.
  - destruct (0 <? ttl l)%Z; (destruct (items l !! k); [done|]);
      by destruct (Z.of_nat (size (items l)) =? cap l)%Z.
  - destruct (items l !! k); [|done]. by destruct (0 <? ttl l)%Z.
  - destruct (items l !! k); [|done]. by destruct (0 <? ttl l)%Z.
  - destruct (l_Len (queue l) =? 0)%Z; [done|]. simpl.
    by destruct (Hloop (reverse (queue l)) 0 [A_Unlock]) as [-> _].
  - destruct (l_Len (queue l) =? 0)%Z; [done|]. simpl.
    rewrite !filter_cons. simpl.
    by destruct (Hloop (reverse (queue l)) 0 [A_Unlock]) as [_ ->].
Qed.
End FurtherProperties.

Section FurtherExamples.
Local Open Scope Z_scope.



Lemma ex_ops_SetGet : Forall (λ op, is_SetGet op = true) ex_ops.
Proof. by repeat constructor. Qed.


Lemma ex_log_reached : run_log [] ex_ops ex_new = Some (ex_full, ["b"; "a"]).
Proof. vm_compute. reflexivity. Qed.

Lemma ex_ttl_on : 0 < ttl ex_full.
Proof. reflexivity. Qed.

Lemma ex_evicted_touched :
  touched (OCall (CSet "c" (Some 3)) 7) ex_full = Some "c".
Proof. reflexivity. Qed.

Lemma ex_evicted_reached :
  step (OCall (CSet "c" (Some 3)) 7) ex_full = Some ex_evicted.
Proof. vm_compute. reflexivity. Qed.

Lemma ex_clock_early : ∀ j : nat, (λ _ : nat, 50) j < 7 + ttl ex_full.
Proof. intros j. reflexivity. Qed.

Lemma ex_spawned_running : crashed ex_rt = false.
Proof. reflexivity. Qed.

Lemma ex_spawned_task : tasks ex_rt !! 0%nat = Some (mkTask 0 4 Spawned).
Proof. reflexivity. Qed.

Lemma ex_spawned_ticks : 1 < t_ticks (mkTask 0 4 Spawned).
Proof. reflexivity. Qed.


Lemma ex_plain_constructed : NoTTL.New 2 = inl ex_plain_new.
Proof. reflexivity. Qed.

Lemma ex_plain_reached :
  NoTTL.run_calls ex_plain_calls ex_plain_new
  = Some ([RSet false; RSet false], ex_plain_full).
Proof. vm_compute. reflexivity. Qed.

Lemma reachable_index_agrees_with_ordering_witness :
  New 2 (ttl_options [(100, 4)]) (mkRuntime [] []) = (inl ex_new, ex_rt) ∧
  run ex_ops ex_new = Some ex_full ∧
  ltac:(let T := type of (reachable_index_agrees_with_ordering
                            2 [(100, 4)] (mkRuntime [] []) ex_new ex_rt ex_ops
                            ex_full ex_new_constructed ex_full_reached)
        in exact T).
Proof.
  split; [reflexivity|]. split; [exact ex_full_reached|].
  exact (reachable_index_agrees_with_ordering
           2 [(100, 4)] (mkRuntime [] []) ex_new ex_rt ex_ops
           ex_full ex_new_constructed ex_full_reached).
Defined.


Lemma capacity_and_cancel_never_change_witness :
  New 2 (ttl_options [(100, 4)]) (mkRuntime [] []) = (inl ex_new, ex_rt) ∧
  run ex_ops ex_new = Some ex_full ∧
  cap ex_full = 2 ∧ cancel ex_full = cancel ex_new ∧
  (ttl ex_full = ttl ex_new ∨ ttl ex_full = 0) ∧
  (Forall (λ op, is_Clear op = false) ex_ops → ttl ex_full = ttl ex_new).
Proof.
  split; [reflexivity|]. split; [exact ex_full_reached|].
  exact (capacity_and_cancel_never_change
           2 [(100, 4)] (mkRuntime [] []) ex_new ex_rt ex_ops ex_full
           ex_new_constructed ex_full_reached).
Defined.

Lemma Set_then_Get_returns_the_value_witness :
  wf ex_full ∧
  ltac:(let T := type of (Set_then_Get_returns_the_value
                            ex_full "c" (Some 3) 7 8 ex_full_wf)
        in exact T).
Proof.
  split; [exact ex_full_wf|].
  exact (Set_then_Get_returns_the_value ex_full "c" (Some 3) 7 8 ex_full_wf).
Defined.

Lemma Get_changes_no_binding_witness :
  wf ex_full ∧
  ltac:(let T := type of (Get_changes_no_binding ex_full "a" 7 ex_full_wf)
        in exact T).
Proof.
  split; [exact ex_full_wf|].
  exact (Get_changes_no_binding ex_full "a" 7 ex_full_wf).
Defined.

Lemma cache_holds_the_most_recently_touched_keys_witness :
  New 2 (ttl_options [(100, 4)]) (mkRuntime [] []) = (inl ex_new, ex_rt) ∧
  Forall (λ op, is_SetGet op = true) ex_ops ∧
  run_log [] ex_ops ex_new = Some (ex_full, ["b"; "a"]) ∧
  ekey <$> queue ex_full = take (Z.to_nat 2) (recency ["b"; "a"]).
Proof.
  split; [reflexivity|]. split; [exact ex_ops_SetGet|].
  split; [exact ex_log_reached|].
  exact (cache_holds_the_most_recently_touched_keys
           2 [(100, 4)] (mkRuntime [] []) ex_new ex_rt ex_ops ex_full ["b"; "a"]
           ex_new_constructed ex_ops_SetGet ex_log_reached).
Defined.

Lemma cache_values_are_the_last_set_witness :
  New 2 (ttl_options [(100, 4)]) (mkRuntime [] []) = (inl ex_new, ex_rt) ∧
  run ex_ops ex_new = Some ex_full ∧
  (∀ k v, holds ex_full k v → last_set ex_ops k = Some v) ∧
  (∀ k now v l', LRUCache_Get k now ex_full = Some ((v, true), l') →
                 last_set ex_ops k = Some v).
Proof.
  split; [reflexivity|]. split; [exact ex_full_reached|].
  exact (cache_values_are_the_last_set
           2 [(100, 4)] (mkRuntime [] []) ex_new ex_rt ex_ops ex_full
           ex_new_constructed ex_full_reached).
Defined.

Lemma tick_removes_all_or_nothing_witness :
  wf ex_full ∧
  ltac:(let T := type of (tick_removes_all_or_nothing (λ _, 200) ex_full ex_full_wf)
        in exact T).
Proof.
  split; [exact ex_full_wf|].
  exact (tick_removes_all_or_nothing (λ _, 200) ex_full ex_full_wf).
Defined.

Lemma tick_twice_at_the_same_time_is_one_tick_witness :
  wf ex_full ∧
  clearExpired (λ _, 105) (clearExpired (λ _, 105) ex_full)
  = clearExpired (λ _, 105) ex_full.
Proof.
  split; [exact ex_full_wf|].
  exact (tick_twice_at_the_same_time_is_one_tick 105 ex_full ex_full_wf).
Defined.

Lemma touched_entry_survives_the_sweeper_witness :
  wf ex_full ∧ 0 < ttl ex_full ∧
  touched (OCall (CSet "c" (Some 3)) 7) ex_full = Some "c" ∧
  step (OCall (CSet "c" (Some 3)) 7) ex_full = Some ex_evicted ∧
  (∀ j : nat, (λ _ : nat, 50) j < 7 + ttl ex_full) ∧
  ltac:(let T := type of (touched_entry_survives_the_sweeper
                            (CSet "c" (Some 3)) 7 ex_full ex_evicted "c" (λ _, 50)
                            ex_full_wf ex_ttl_on ex_evicted_touched
                            ex_evicted_reached ex_clock_early)
        in exact T).
Proof.
  split; [exact ex_full_wf|]. split; [exact ex_ttl_on|].
  split; [exact ex_evicted_touched|]. split; [exact ex_evicted_reached|].
  split; [exact ex_clock_early|].
  exact (touched_entry_survives_the_sweeper
           (CSet "c" (Some 3)) 7 ex_full ex_evicted "c" (λ _, 50)
           ex_full_wf ex_ttl_on ex_evicted_touched ex_evicted_reached
           ex_clock_early).
Defined.


Lemma sweeper_period_is_read_when_the_goroutine_starts_witness :
  crashed (w_rt (mkWorld ex_new ex_rt)) = false ∧
  tasks (w_rt (mkWorld ex_new ex_rt)) !! 0%nat = Some (mkTask 0 4 Spawned) ∧
  t_state (mkTask 0 4 Spawned) = Spawned ∧
  1 < t_ticks (mkTask 0 4 Spawned) ∧
  ltac:(let T := type of (sweeper_period_is_read_when_the_goroutine_starts
                            (mkWorld ex_new ex_rt) 0%nat (mkTask 0 4 Spawned)
                            ex_spawned_running ex_spawned_task eq_refl
                            ex_spawned_ticks)
        in exact T).
Proof.
  split; [exact ex_spawned_running|]. split; [exact ex_spawned_task|].
  split; [reflexivity|]. split; [exact ex_spawned_ticks|].
  exact (sweeper_period_is_read_when_the_goroutine_starts
           (mkWorld ex_new ex_rt) 0%nat (mkTask 0 4 Spawned)
           ex_spawned_running ex_spawned_task eq_refl ex_spawned_ticks).
Defined.


Lemma NoTTL_cache_never_panics_and_stays_consistent_witness :
  NoTTL.New 2 = inl ex_plain_new ∧
  ltac:(let T := type of (NoTTL_cache_never_panics_and_stays_consistent
                            2 (ex_plain_calls ++ [CGet "a"; CClear]) ex_plain_new
                            ex_plain_constructed)
        in exact T).
Proof.
  split; [reflexivity|].
  exact (NoTTL_cache_never_panics_and_stays_consistent
           2 (ex_plain_calls ++ [CGet "a"; CClear]) ex_plain_new
           ex_plain_constructed).
Defined.

Lemma NoTTL_Set_then_Get_returns_the_value_witness :
  NoTTL.New 2 = inl ex_plain_new ∧
  NoTTL.run_calls ex_plain_calls ex_plain_new
  = Some ([RSet false; RSet false], ex_plain_full) ∧
  ltac:(let T := type of (NoTTL_Set_then_Get_returns_the_value
                            2 ex_plain_calls ex_plain_new
                            [RSet false; RSet false] ex_plain_full "c" (Some 3)
                            ex_plain_constructed ex_plain_reached)
        in exact T).
Proof.
  split; [reflexivity|]. split; [exact ex_plain_reached|].
  exact (NoTTL_Set_then_Get_returns_the_value
           2 ex_plain_calls ex_plain_new [RSet false; RSet false] ex_plain_full
           "c" (Some 3) ex_plain_constructed ex_plain_reached).
Defined.
End FurtherExamples.
